(** * htcmap: a shallow embedding of [htcmap/mapper.py]

    The development follows the Python module top-down: the helpers on text
    and tuples, the ragged zip [zip_args_and_kwargs], the keyword product of
    [HTCMapper.productmap], the submission planner [HTCMapper._map], the
    result handle [MapResult] and the job builder [JobBuilder]; the handle
    [Job] of [condormap.py] comes last.

    Conventions of the embedding:
    - a [pathlib.Path] is the list of its parts, [p </> s] is [p / s];
    - the work-item store is a finite map from paths to file contents;
    - a Python [dict] is an association list in insertion order;
    - a generator is the list of the values it yields, together with the
      exception that ended it (if any);
    - polling loops take fuel; [None] means that the fuel ran out;
    - time is a logical clock counting the seconds slept by [time.sleep(1)];
      the store seen by a result handle is a function of that clock, since
      output blobs are deposited by the remote execution wrapper. *)

From Stdlib Require Import ZArith Lia Ascii.
From stdpp Require Import base option list sets gmap strings pretty.

Local Open Scope Z_scope.

(** ** Paths *)

Abbreviation Path := (list string).

Definition path_div (p : Path) (s : string) : Path := p ++ [s].
Infix "</>" := path_div (at level 50, left associativity).

(** ** Text helpers: [str.join], [str.strip], iteration over a text file *)

(** ['\n'.join(xs)] *)
Fixpoint join (sep : string) (xs : list string) : string :=
  match xs with
  | [] => ""
  | [x] => x
  | x :: xs' => x +:+ sep +:+ join sep xs'
  end.

Definition LF : ascii := "010"%char.
Definition CR : ascii := "013"%char.

(** [str.isspace] on the ASCII range: tab, line feed, vertical tab, form
    feed, carriage return, the four separators 28..31 and the blank. *)
Definition is_space (c : ascii) : bool :=
  match c with
  | "009" | "010" | "011" | "012" | "013"
  | "028" | "029" | "030" | "031" | " " => true
  | _ => false
  end%char.

Fixpoint lstrip (s : string) : string :=
  match s with
  | "" => ""
  | String c s' => if is_space c then lstrip s' else s
  end.

Fixpoint rstrip (s : string) : string :=
  match s with
  | "" => ""
  | String c s' =>
      match rstrip s' with
      | "" => if is_space c then "" else String c ""
      | r => String c r
      end
  end.

(** [s.strip()] *)
Definition strip (s : string) : string := rstrip (lstrip s).

(** Reading a file opened in text mode translates ["\r\n"] and ["\r"] to
    ["\n"] (universal newlines). *)
Fixpoint universal_newlines (s : string) : string :=
  match s with
  | "" => ""
  | String c s' =>
      if Ascii.eqb c CR then
        match s' with
        | String c' s'' =>
            if Ascii.eqb c' LF then String LF (universal_newlines s'')
            else String LF (universal_newlines s')
        | "" => String LF ""
        end
      else String c (universal_newlines s')
  end.

(** [for line in file]: the lines of the text, each with its line feed; a
    last line without line feed is yielded as it is. *)
Fixpoint split_lines (s : string) : list string :=
  match s with
  | "" => []
  | String c s' =>
      if Ascii.eqb c LF then String c "" :: split_lines s'
      else match split_lines s' with
           | [] => [String c ""]
           | l :: ls => String c l :: ls
           end
  end.

Definition file_lines (content : string) : list string :=
  split_lines (universal_newlines content).

(** A fingerprint is a hex digest: a non-empty string of [0-9a-f]. *)
Definition is_hex_char (c : ascii) : bool :=
  match c with
  | "0" | "1" | "2" | "3" | "4" | "5" | "6" | "7" | "8" | "9"
  | "a" | "b" | "c" | "d" | "e" | "f" => true
  | _ => false
  end%char.

Fixpoint all_hex (s : string) : bool :=
  match s with
  | "" => true
  | String c s' => is_hex_char c && all_hex s'
  end.

Definition is_hex (s : string) : bool :=
  match s with
  | "" => false
  | _ => all_hex s
  end.

(** ** Exceptions and results *)

Inductive exn : Type :=
  | HashNotInResult
  | TimeoutError
  | OutputNotFound
  | NoResultYet
  | IndexError
  | TypeError
  | AttributeError
  | FileNotFoundError.

Inductive result (A : Type) : Type :=
  | Ok (a : A)
  | Raise (e : exn).
Arguments Ok {A} a.
Arguments Raise {A} e.

(** ** Python values of the embedding *)

(** A [dict] with string keys, in insertion order. *)
Abbreviation dict V := (list (string * V)).

(** [d[key] = v]: the value of an existing key is replaced in place, a new
    key goes to the end. *)
Fixpoint dict_set {V : Type} (d : dict V) (key : string) (v : V) : dict V :=
  match d with
  | [] => [(key, v)]
  | (k, w) :: d' =>
      if String.eqb k key then (k, v) :: d' else (k, w) :: dict_set d' key v
  end.

(** [t[i]] on a tuple: negative indices count from the end, an index outside
    [-len(t), len(t)) raises [IndexError]. *)
Definition tuple_index {A : Type} (t : list A) (i : Z) : result A :=
  let n := Z.of_nat (length t) in
  let j := if i <? 0 then i + n else i in
  if (j <? 0) || (n <=? j) then Raise IndexError
  else match t !! Z.to_nat j with
       | Some x => Ok x
       | None => Raise IndexError
       end.

(** ** Iterators: [iter(xs)], [itertools.repeat], [next] *)

Inductive iterator (A : Type) : Type :=
  | ListIter (l : list A)
  | Repeat (a : A).
Arguments ListIter {A} l.
Arguments Repeat {A} a.

(** [next(it)]; [None] is [StopIteration]. *)
Definition next {A : Type} (it : iterator A) : option (A * iterator A) :=
  match it with
  | ListIter [] => None
  | ListIter (x :: l) => Some (x, ListIter l)
  | Repeat a => Some (a, Repeat a)
  end.

(** ** [zip_args_and_kwargs] *)

Section ZipArgsAndKwargs.
Context {V : Type}.

(** [fills = {0: (), 1: {}}] *)
Definition fills0 : list V := [].
Definition fills1 : dict V := [].

(** One turn of [while True] runs the inner [for] over the two iterators:
    [zip_second] is its second step ([i = 1]), [zip_loop] its first
    ([i = 0]) followed by the [yield] and the next turn.  A [return]
    inside the [for] ends the generator without yielding the partial
    [values]. *)
Fixpoint zip_loop (fuel : nat) (it0 : iterator (list V))
    (it1 : iterator (dict V)) (num_active : Z)
    : option (list (list V * dict V)) :=
  match fuel with
  | O => None
  | S fuel' =>
      let zip_second (v0 : list V) (it0 : iterator (list V))
          (num_active : Z) :=
        match next it1 with
        | Some (v1, it1') =>
            cons (v0, v1) <$> zip_loop fuel' it0 it1' num_active
        | None =>
            let num_active := num_active - 1 in
            if num_active =? 0 then Some []
            else cons (v0, fills1)
                   <$> zip_loop fuel' it0 (Repeat fills1) num_active
        end in
      match next it0 with
      | Some (v0, it0') => zip_second v0 it0' num_active
      | None =>
          let num_active := num_active - 1 in
          if num_active =? 0 then Some []
          else zip_second fills0 (Repeat fills0) num_active
      end
  end.

Definition zip_args_and_kwargs (fuel : nat) (args : list (list V))
    (kwargs : list (dict V)) : option (list (list V * dict V)) :=
  zip_loop fuel (ListIter args) (ListIter kwargs) 2.

(** ** The keyword product of [productmap] *)

(** [zip(dicts, itertools.cycle(values))]: [pending] is what is left of
    the current round, [saved] the values to start the next round with;
    [zip] stops with the shorter side, and a cycle over nothing is empty. *)
Fixpoint zip_cycle (dicts : list (dict V)) (pending saved : list V)
    : list (dict V * V) :=
  match dicts with
  | [] => []
  | d :: dicts' =>
      match pending with
      | v :: pending' => (d, v) :: zip_cycle dicts' pending' saved
      | [] =>
          match saved with
          | v :: pending' => (d, v) :: zip_cycle dicts' pending' saved
          | [] => []
          end
      end
  end.

(** The body of [for key, values in kwargs.items()].  Every element of the
    new [dicts] is a fresh [deepcopy], so the assignments [d[key] = v] do
    not alias; the dictionaries that [zip] does not reach stay as they
    are. *)
Definition product_step (dicts : list (dict V)) (key : string)
    (values : list V) : list (dict V) :=
  let dicts := d ← dicts; replicate (length values) d in
  let assigned := zip_cycle dicts values values in
  ((λ dv, dict_set dv.1 key dv.2) <$> assigned)
    ++ drop (length assigned) dicts.

Definition product_dicts (kwargs : dict (list V)) : list (dict V) :=
  foldl (λ dicts kv, product_step dicts kv.1 kv.2) [ [] ] kwargs.

(** The nested loops that the tie-break rule describes: the first key is
    the outermost loop, the last key the innermost. *)
Fixpoint nested_product (d : dict V) (kwargs : dict (list V))
    : list (dict V) :=
  match kwargs with
  | [] => [d]
  | (key, values) :: kwargs' =>
      v ← values; nested_product (dict_set d key v) kwargs'
  end.
End ZipArgsAndKwargs.


(** ** The work-item store and the external scheduler *)

Abbreviation FS := (gmap Path string).

(** [path.exists()] *)
Definition path_exists (fs : FS) (p : Path) : bool :=
  bool_decide (is_Some (fs !! p)).

(** Blobs are written once and never changed: the blob [b] is at path [p]
    from time [a] on, and nothing is there before. *)
Definition written_at (disk : nat → FS) (p : Path) (a : nat) (b : string)
    : Prop :=
  ∀ t, disk t !! p = if decide (a ≤ t)%nat then Some b else None.

(** The line feed as a string: the separator of the manifest. *)
Definition NL : string := String LF EmptyString.

(** The scheduler is an external collaborator; the embedding keeps of it
    what the planner hands over and gets back: every batch queued (cluster
    id, [JobBatchName], item data in order) and the id of the next cluster. *)
Record Schedd : Type := {
  next_clusterid : Z;
  queued : list (Z * string * list string)
}.

(** [sub.queue_with_itemdata(txn, 1, iter(new_hashes))] in one transaction,
    followed by [submit_result.cluster()]. *)
Definition queue_with_itemdata (batch_name : string) (items : list string)
    (s : Schedd) : Z * Schedd :=
  (next_clusterid s,
   {| next_clusterid := next_clusterid s + 1;
      queued := queued s ++ [(next_clusterid s, batch_name, items)] |}).

(** What a generator has done when it stops: the values yielded in order,
    the exception that ended it (if any), and the clock at that point. *)
Abbreviation gen A := (list A * option exn * nat)%type.

Definition gen_cons {A : Type} (x : A) (g : gen A) : gen A :=
  (x :: g.1.1, g.1.2, g.2).

Definition gen_app {A : Type} (xs : list A) (g : gen A) : gen A :=
  (xs ++ g.1.1, g.1.2, g.2).

(** ** A small instance to run the definitions on

    Values are integers, a function is known by its name, an object is the
    blob it was read from; the serialization prints the arguments and the
    digest is the hex encoding of the bytes behind a leading zero. *)

Definition hex_digit (n : N) : ascii :=
  match n with
  | 0 => "0" | 1 => "1" | 2 => "2" | 3 => "3" | 4 => "4" | 5 => "5"
  | 6 => "6" | 7 => "7" | 8 => "8" | 9 => "9" | 10 => "a" | 11 => "b"
  | 12 => "c" | 13 => "d" | 14 => "e" | _ => "f"
  end%N%char.

Fixpoint hex_encode (s : string) : string :=
  match s with
  | EmptyString => EmptyString
  | String c s' =>
      String (hex_digit (N_of_ascii c / 16))
        (String (hex_digit (N_of_ascii c mod 16)) (hex_encode s'))
  end.

Definition toy_hash (b : string) : string := String "0" (hex_encode b).

Definition toy_to_bytes (a_and_k : list Z * dict Z) : string :=
  join "," (pretty <$> a_and_k.1) +:+ ";"
    +:+ join "," ((λ kv, kv.1 +:+ "=" +:+ pretty kv.2) <$> a_and_k.2).

Definition toy_set_iter (K : Type) `{Countable K} (s : gset K) : list K :=
  elements s.

Section Htcmap.
Context {V F Obj : Type}.

(** [htcio.to_bytes], [htcio.hash_bytes] and the unpickling of
    [htcio.load_object] are outside the sources; so are
    [settings.HTCMAP_DIR] and the order in which Python walks a [set].
    [func_name] is [f.__name__] of a plain function. *)
Variable to_bytes : list V * dict V → string.
Variable hash_bytes : string → string.
Variable loads : string → Obj.
Variable func_name : F → string.
Variable HTCMAP_DIR : Path.
Variable set_iter : ∀ (K : Type) `{Countable K}, gset K → list K.

(** *** [HTCMapper] *)

(** A callable is a plain function or an [HTCMapper] (callable through
    [__call__]).  [HTCMapper.__init__] keeps whatever callable it is given
    as [self.func], so the two types are mutual. *)
Inductive callable : Type :=
  | PlainFunc (f : F)
  | MapperObj (m : HTCMapper)
with HTCMapper : Type :=
  | Build_HTCMapper (func : callable) (name : string)
      (submit_descriptors : dict string).

Definition func (self : HTCMapper) : callable :=
  let 'Build_HTCMapper func _ _ := self in func.
Definition name (self : HTCMapper) : string :=
  let 'Build_HTCMapper _ name _ := self in name.
Definition submit_descriptors (self : HTCMapper) : dict string :=
  let 'Build_HTCMapper _ _ submit_descriptors := self in submit_descriptors.

(** The pickling of a callable by [htcio.save_object] is outside the
    sources. *)
Variable dumps_func : callable → string.

Definition map_dir (self : HTCMapper) : Path := HTCMAP_DIR </> name self.
Definition inputs_dir (self : HTCMapper) : Path := map_dir self </> "inputs".
Definition outputs_dir (self : HTCMapper) : Path := map_dir self </> "outputs".
Definition job_logs_dir (self : HTCMapper) : Path := map_dir self </> "job_logs".
Definition cluster_logs_dir (self : HTCMapper) : Path :=
  map_dir self </> "cluster_logs".
Definition hashes_dir (self : HTCMapper) : Path :=
  map_dir self </> "hashes_by_clusterid".
Definition fn_path (self : HTCMapper) : Path := map_dir self </> "fn.pkl".

(** [HTCMapper.__init__].  The directories made by [_mkdirs] hold no state
    of their own in a store keyed by full paths; the function blob is
    written unless it is there already. *)
Definition HTCMapper_init (func : callable) (name : string)
    (submit_descriptors : option (dict string)) (fs : FS)
    : FS * HTCMapper :=
  let self :=
    Build_HTCMapper func name (default [] submit_descriptors) in
  if path_exists fs (fn_path self) then (fs, self)
  else (<[fn_path self := dumps_func func]> fs, self).

(** *** The decorator [htcmap] *)

(** The first argument of [htcmap]: [None], a name, or, when the decorator
    is used without parentheses, the decorated object itself. *)
Inductive name_arg : Type :=
  | NameNone
  | NameStr (s : string)
  | NameCallable (c : callable).

(** [func.__name__]: an [HTCMapper] has no such attribute. *)
Definition dunder_name (func : callable) : result string :=
  match func with
  | PlainFunc f => Ok (func_name f)
  | MapperObj _ => Raise AttributeError
  end.

(** The inner function of [htcmap]; [func.__name__] is only evaluated when
    [name] is not a string. *)
Definition wrapper (name : name_arg)
    (submit_descriptors : option (dict string)) (decorated : callable)
    (fs : FS) : result (FS * HTCMapper) :=
  let func := match decorated with
              | MapperObj m => func m
              | PlainFunc _ => decorated
              end in
  match name with
  | NameStr s => Ok (HTCMapper_init func s submit_descriptors fs)
  | _ =>
      match dunder_name func with
      | Ok n => Ok (HTCMapper_init func n submit_descriptors fs)
      | Raise e => Raise e
      end
  end.

(** What [htcmap] returns: the decorator [wrapper], still to be applied, or
    the mapper (with the store after [HTCMapper.__init__]). *)
Inductive htcmap_result : Type :=
  | Decorator (name : name_arg) (submit_descriptors : option (dict string))
  | Mapper (fs : FS) (m : HTCMapper).

Definition htcmap (name : name_arg)
    (submit_descriptors : option (dict string)) (fs : FS)
    : result htcmap_result :=
  match name with
  | NameCallable c =>
      match wrapper name submit_descriptors c fs with
      | Ok (fs, m) => Ok (Mapper fs m)
      | Raise e => Raise e
      end
  | _ => Ok (Decorator name submit_descriptors)
  end.

(** *** [MapResult] *)

Record MapResult : Type := {
  mapper : HTCMapper;
  clusterid : option Z;
  hashes : list string;
  hash_set : gset string
}.

(** [MapResult.__init__] *)
Definition MapResult_init (mapper : HTCMapper) (clusterid : option Z)
    (hashes : list string) : MapResult :=
  {| mapper := mapper; clusterid := clusterid; hashes := hashes;
     hash_set := list_to_set hashes |}.

Definition output_path (self : HTCMapper) (h : string) : Path :=
  outputs_dir self </> (h +:+ ".out").
Definition input_path (self : HTCMapper) (h : string) : Path :=
  inputs_dir self </> (h +:+ ".in").
Definition manifest_path (self : HTCMapper) (clusterid : Z) : Path :=
  hashes_dir self </> (pretty clusterid +:+ ".hashes").

(** [MapResult.from_clusterid] *)
Definition from_clusterid (mapper : HTCMapper) (clusterid : Z) (fs : FS)
    : result MapResult :=
  match fs !! manifest_path mapper clusterid with
  | None => Raise FileNotFoundError
  | Some content =>
      Ok (MapResult_init mapper (Some clusterid) (strip <$> file_lines content))
  end.

(** *** The submission planner [HTCMapper._map] *)

Definition fingerprint (a_and_k : list V * dict V) : string :=
  hash_bytes (to_bytes a_and_k).

(** The [for] loop of [_map]: [hashes] and [new_hashes] are the two lists it
    appends to; [htcio.save_bytes(b, input_path)] writes [b] at the path. *)
Fixpoint _map_loop (self : HTCMapper)
    (args_and_kwargs : list (list V * dict V)) (fs : FS)
    (hashes new_hashes : list string) : FS * list string * list string :=
  match args_and_kwargs with
  | [] => (fs, hashes, new_hashes)
  | a_and_k :: rest =>
      let b := to_bytes a_and_k in
      let h := hash_bytes b in
      let hashes := hashes ++ [h] in
      if path_exists fs (output_path self h)
      then _map_loop self rest fs hashes new_hashes
      else _map_loop self rest (<[input_path self h := b]> fs)
             hashes (new_hashes ++ [h])
  end.

Definition _map (self : HTCMapper)
    (args_and_kwargs : list (list V * dict V)) (fs : FS) (schedd : Schedd)
    : FS * Schedd * MapResult :=
  let '(fs, hashes, new_hashes) := _map_loop self args_and_kwargs fs [] [] in
  match new_hashes with
  | [] => (fs, schedd, MapResult_init self None hashes)
  | _ :: _ =>
      let '(clusterid, schedd) :=
        queue_with_itemdata (name self) new_hashes schedd in
      let fs := <[manifest_path self clusterid := join NL hashes]> fs in
      (fs, schedd, MapResult_init self (Some clusterid) hashes)
  end.

(** [HTCMapper.map]: [zip(((arg,) for arg in args), repeat(kwargs))] *)
Definition HTCMapper_map (self : HTCMapper) (args : list V) (kwargs : dict V)
    (fs : FS) (schedd : Schedd) : FS * Schedd * MapResult :=
  _map self ((λ arg, ([arg], kwargs)) <$> args) fs schedd.

(** [HTCMapper.productmap]: [zip(repeat(args), dicts)] *)
Definition productmap_items (args : list V) (kwargs : dict (list V))
    : list (list V * dict V) :=
  (λ d, (args, d)) <$> product_dicts kwargs.

Definition productmap (self : HTCMapper) (args : list V)
    (kwargs : dict (list V)) (fs : FS) (schedd : Schedd)
    : FS * Schedd * MapResult :=
  _map self (productmap_items args kwargs) fs schedd.

(** [HTCMapper.starmap] *)
Definition starmap (fuel : nat) (self : HTCMapper) (args : list (list V))
    (kwargs : list (dict V)) (fs : FS) (schedd : Schedd)
    : option (FS * Schedd * MapResult) :=
  items ← zip_args_and_kwargs fuel args kwargs;
  Some (_map self items fs schedd).

(** *** Reading the store *)

(** Modelled from the spec: [htcio.load_object] is not among the sources.
    It reads the blob at the path and deserializes it (all blob reads fail
    with an I/O error when the blob is not there). *)
Definition load_object (fs : FS) (path : Path) : result Obj :=
  match fs !! path with
  | Some b => Ok (loads b)
  | None => Raise FileNotFoundError
  end.

(** Modelled from the spec: the test that ends the wait of
    [utils.wait_for_path_to_exist] (not among the sources): there is a
    timeout and it has elapsed since [start]. *)
Definition timed_out (timeout : option Z) (start now : nat) : bool :=
  match timeout with
  | None => false
  | Some t => t <=? Z.of_nat now - Z.of_nat start
  end.

(** Modelled from the spec: the polling loop of
    [utils.wait_for_path_to_exist], which is not among the sources.  It
    checks the path, gives up with [TimeoutError] when the timeout has
    elapsed, and sleeps one second otherwise; a zero timeout is therefore a
    single non-blocking check, and no timeout waits for ever.  The result
    carries the clock at which the loop stopped. *)
Fixpoint wait_loop (fuel : nat) (disk : nat → FS) (path : Path)
    (timeout : option Z) (start now : nat) : option (result unit * nat) :=
  match fuel with
  | O => None
  | S fuel' =>
      if path_exists (disk now) path then Some (Ok (), now)
      else if timed_out timeout start now then Some (Raise TimeoutError, now)
      else wait_loop fuel' disk path timeout start (S now)
  end.

(** Modelled from the spec: [utils.wait_for_path_to_exist(path, timeout)],
    not among the sources: block (polling) until the path exists or the
    timeout elapses, counted from the call. *)
Definition wait_for_path_to_exist (fuel : nat) (disk : nat → FS)
    (path : Path) (timeout : option Z) (now : nat)
    : option (result unit * nat) :=
  wait_loop fuel disk path timeout now now.

(** *** [MapResult.get] *)

Inductive IndexOrHash : Type :=
  | Index (i : Z)
  | Hash (h : string).

Definition _item_to_hash (self : MapResult) (item : IndexOrHash)
    : result string :=
  match item with
  | Index i => tuple_index (hashes self) i
  | Hash h => Ok h
  end.

(** [timeout] is in seconds (a [timedelta] has been converted by
    [total_seconds()]).  In the handler, [timeout <= 0] on [None] would be a
    [TypeError]. *)
Definition get (fuel : nat) (disk : nat → FS) (self : MapResult)
    (item : IndexOrHash) (timeout : option Z) (now : nat)
    : option (result Obj * nat) :=
  match _item_to_hash self item with
  | Raise e => Some (Raise e, now)
  | Ok h =>
      if bool_decide (h ∉ hash_set self) then Some (Raise HashNotInResult, now)
      else
        let path := output_path (mapper self) h in
        match wait_for_path_to_exist fuel disk path timeout now with
        | None => None
        | Some (Raise TimeoutError, t) =>
            match timeout with
            | Some z =>
                if z <=? 0 then Some (Raise OutputNotFound, t)
                else Some (Raise TimeoutError, t)
            | None => Some (Raise TypeError, t)
            end
        | Some (Raise e, t) => Some (Raise e, t)
        | Some (Ok _, t) => Some (load_object (disk t) path, t)
        end
  end.

(** [MapResult.__getitem__]: non-blocking get *)
Definition getitem (disk : nat → FS) (self : MapResult) (item : IndexOrHash)
    (now : nat) : option (result Obj * nat) :=
  get 1 disk self item (Some 0) now.

(** *** The ordered iterations

    [callback] is called on every value right before it is yielded and its
    result is dropped, so the calls of the callback are the yielded values
    in order. *)

Fixpoint iter_loop (fuel : nat) (disk : nat → FS) (self : MapResult)
    (timeout : option Z) (todo : list string) (now : nat)
    : option (gen Obj) :=
  match todo with
  | [] => Some ([], None, now)
  | h :: todo' =>
      let path := output_path (mapper self) h in
      match wait_for_path_to_exist fuel disk path timeout now with
      | None => None
      | Some (Raise e, t) => Some ([], Some e, t)
      | Some (Ok _, t) =>
          match load_object (disk t) path with
          | Raise e => Some ([], Some e, t)
          | Ok out => gen_cons out <$> iter_loop fuel disk self timeout todo' t
          end
      end
  end.

Definition iter (fuel : nat) (disk : nat → FS) (self : MapResult)
    (timeout : option Z) (now : nat) : option (gen Obj) :=
  iter_loop fuel disk self timeout (hashes self) now.

Fixpoint iter_with_inputs_loop (fuel : nat) (disk : nat → FS)
    (self : MapResult) (timeout : option Z) (todo : list string) (now : nat)
    : option (gen (Obj * Obj)) :=
  match todo with
  | [] => Some ([], None, now)
  | h :: todo' =>
      let input_path := input_path (mapper self) h in
      let output_path := output_path (mapper self) h in
      match wait_for_path_to_exist fuel disk output_path timeout now with
      | None => None
      | Some (Raise e, t) => Some ([], Some e, t)
      | Some (Ok _, t) =>
          match load_object (disk t) input_path with
          | Raise e => Some ([], Some e, t)
          | Ok inp =>
              match load_object (disk t) output_path with
              | Raise e => Some ([], Some e, t)
              | Ok out =>
                  gen_cons (inp, out)
                    <$> iter_with_inputs_loop fuel disk self timeout todo' t
              end
          end
      end
  end.

Definition iter_with_inputs (fuel : nat) (disk : nat → FS) (self : MapResult)
    (timeout : option Z) (now : nat) : option (gen (Obj * Obj)) :=
  iter_with_inputs_loop fuel disk self timeout (hashes self) now.

(** *** The as-available iterations

    [iter_as_available] and [iter_as_available_with_inputs] run the same two
    loops over a set; they differ in the elements of the set (a path, a pair
    of paths), in the path whose existence is tested ([ready]) and in what
    is loaded and yielded ([load]). *)

(** [for path in copy(paths)]: one scan of the store as it is at that time.
    [todo] walks the copy, [paths] is the set the loop removes from. *)
Fixpoint scan `{Countable K} {O : Type} (ready : FS → K → bool)
    (load : FS → K → result O) (fs : FS) (todo : list K) (paths : gset K)
    : gset K * list O * option exn :=
  match todo with
  | [] => (paths, [], None)
  | p :: todo' =>
      if negb (ready fs p) then scan ready load fs todo' paths
      else
        let paths := paths ∖ {[p]} in
        match load fs p with
        | Raise e => (paths, [], Some e)
        | Ok obj =>
            let '(paths, objs, e) := scan ready load fs todo' paths in
            (paths, obj :: objs, e)
        end
  end.

(** [while len(paths) > 0: <scan>; time.sleep(1)] *)
Fixpoint as_available_loop `{Countable K} {O : Type} (ready : FS → K → bool)
    (load : FS → K → result O) (fuel : nat) (disk : nat → FS)
    (paths : gset K) (now : nat) : option (gen O) :=
  match fuel with
  | O => None
  | S fuel' =>
      if bool_decide (0 < size paths)%nat then
        let '(paths, objs, e) :=
          scan ready load (disk now) (set_iter K paths) paths in
        match e with
        | Some _ => Some (objs, e, now)
        | None =>
            gen_app objs
              <$> as_available_loop ready load fuel' disk paths (S now)
        end
      else Some ([], None, now)
  end.

Definition iter_as_available (fuel : nat) (disk : nat → FS)
    (self : MapResult) (now : nat) : option (gen Obj) :=
  let paths : gset Path :=
    list_to_set (output_path (mapper self) <$> hashes self) in
  as_available_loop path_exists load_object fuel disk paths now.

(** The pairs of paths of [iter_as_available_with_inputs], as the source
    builds them. *)
Definition input_output_paths (self : MapResult) : gset (Path * Path) :=
  list_to_set
    ((λ h, (output_path (mapper self) h, output_path (mapper self) h))
       <$> hashes self).

Definition load_pair (fs : FS) (input_output_paths : Path * Path)
    : result (Obj * Obj) :=
  let '(input_path, output_path) := input_output_paths in
  match load_object fs input_path with
  | Raise e => Raise e
  | Ok inp =>
      match load_object fs output_path with
      | Raise e => Raise e
      | Ok out => Ok (inp, out)
      end
  end.

Definition iter_as_available_with_inputs (fuel : nat) (disk : nat → FS)
    (self : MapResult) (now : nat) : option (gen (Obj * Obj)) :=
  as_available_loop (λ fs input_output_paths, path_exists fs input_output_paths.2)
    load_pair fuel disk (input_output_paths self) now.

(** *** [MapResult.wait] *)

(** [name.rfind('.')]: the position of the last dot, [None] for [-1]. *)
Fixpoint rfind_dot (name : string) : option nat :=
  match name with
  | EmptyString => None
  | String c s =>
      match rfind_dot s with
      | Some i => Some (S i)
      | None => if Ascii.eqb c "." then Some 0%nat else None
      end
  end.

(** [PurePath.stem]: the name without its last suffix; a dot at the start
    or at the end of the name starts no suffix. *)
Definition stem (name : string) : string :=
  match rfind_dot name with
  | Some i =>
      if (0 <? i)%nat && (i <? String.length name - 1)%nat
      then String.substring 0 i name
      else name
  | None => name
  end.

(** The entry of [dir] on the way to [p]: the part of [p] that follows
    [dir], if [p] is below [dir]. *)
Fixpoint entry_name (dir p : Path) : option string :=
  match dir, p with
  | [], name :: _ => Some name
  | d :: dir', q :: p' => if String.eqb d q then entry_name dir' p' else None
  | _, _ => None
  end.

(** [set(f.stem for f in dir.iterdir())], in a store keyed by full paths. *)
Definition iterdir_stems (fs : FS) (dir : Path) : gset string :=
  list_to_set (stem <$> omap (entry_name dir) (elements (dom fs))).

(** The inner function [is_missing_hashes] of [wait]. *)
Definition is_missing_hashes (fs : FS) (self : MapResult) : bool :=
  let output_hashes := iterdir_stems fs (outputs_dir (mapper self)) in
  let missing_hashes := hash_set self ∖ output_hashes in
  bool_decide (size missing_hashes ≠ 0%nat).

(** [while is_missing_hashes(): ...; time.sleep(1)], with
    [time.time() - timeout > start_time] as the test of the timeout. *)
Fixpoint wait_while_missing (fuel : nat) (disk : nat → FS)
    (self : MapResult) (timeout : option Z) (start_time now : nat)
    : option (result unit * nat) :=
  match fuel with
  | O => None
  | S fuel' =>
      if is_missing_hashes (disk now) self then
        if match timeout with
           | Some t => Z.of_nat start_time <? Z.of_nat now - t
           | None => false
           end
        then Some (Raise TimeoutError, now)
        else wait_while_missing fuel' disk self timeout start_time (S now)
      else Some (Ok (), now)
  end.

(** [MapResult.wait] *)
Definition wait (fuel : nat) (disk : nat → FS) (self : MapResult)
    (timeout : option Z) (now : nat) : option (result unit * nat) :=
  wait_while_missing fuel disk self timeout now now.

(** *** The logs of an item *)

(** The [output] and [error] entries of the submit description that [_map]
    builds, [job_logs_dir / '$(Item).output'] and
    [job_logs_dir / '$(Item).error'], for the item [h]. *)
Definition job_output_path (self : HTCMapper) (h : string) : Path :=
  job_logs_dir self </> (h +:+ ".output").
Definition job_error_path (self : HTCMapper) (h : string) : Path :=
  job_logs_dir self </> (h +:+ ".error").

(** [MapResult.iter_output]: the lines of the file, or the exception of
    [_item_to_hash] or of [open]. *)
Definition iter_output (fs : FS) (self : MapResult) (item : IndexOrHash)
    : result (list string) :=
  match _item_to_hash self item with
  | Raise e => Raise e
  | Ok h =>
      match fs !! (job_logs_dir (mapper self) </> (h +:+ ".out")) with
      | None => Raise FileNotFoundError
      | Some text => Ok (file_lines text)
      end
  end.

(** [MapResult.iter_error] *)
Definition iter_error (fs : FS) (self : MapResult) (item : IndexOrHash)
    : result (list string) :=
  match _item_to_hash self item with
  | Raise e => Raise e
  | Ok h =>
      match fs !! (job_logs_dir (mapper self) </> (h +:+ ".err")) with
      | None => Raise FileNotFoundError
      | Some text => Ok (file_lines text)
      end
  end.

(** [MapResult.output]: [''.join(self.iter_output(item))] *)
Definition output (fs : FS) (self : MapResult) (item : IndexOrHash)
    : result string :=
  match iter_output fs self item with
  | Raise e => Raise e
  | Ok lines => Ok (join EmptyString lines)
  end.

(** [MapResult.error] *)
Definition error (fs : FS) (self : MapResult) (item : IndexOrHash)
    : result string :=
  match iter_error fs self item with
  | Raise e => Raise e
  | Ok lines => Ok (join EmptyString lines)
  end.

(** *** [HTCMapper.reconstruct] and [HTCMapper.__call__] *)

Definition reconstruct (self : HTCMapper) (clusterid : Z) (fs : FS)
    : result MapResult :=
  from_clusterid self clusterid fs.

(** What calling a plain function gives is outside the embedding. *)
Context {Ret : Type}.
Variable call_func : F → list V → dict V → Ret.

(** Calling a callable with positional and keyword arguments;
    [HTCMapper.__call__] hands them to [self.func]. *)
Fixpoint call (c : callable) (args : list V) (kwargs : dict V) : Ret :=
  match c with
  | PlainFunc f => call_func f args kwargs
  | MapperObj m => HTCMapper_call m args kwargs
  end
with HTCMapper_call (self : HTCMapper) (args : list V) (kwargs : dict V)
    : Ret :=
  match self with
  | Build_HTCMapper func _ _ => call func args kwargs
  end.

(** *** [JobBuilder] *)

Record JobBuilder : Type := {
  builder_mapper : HTCMapper;
  builder_args : list (list V);
  builder_kwargs : list (dict V);
  _result : option MapResult
}.

(** [JobBuilder.__init__] *)
Definition JobBuilder_init (mapper : HTCMapper) : JobBuilder :=
  {| builder_mapper := mapper; builder_args := []; builder_kwargs := [];
     _result := None |}.

(** [HTCMapper.build_job] *)
Definition build_job (self : HTCMapper) : JobBuilder := JobBuilder_init self.

(** [JobBuilder.__call__]: one more call is noted, nothing is run. *)
Definition JobBuilder_call (self : JobBuilder) (args : list V)
    (kwargs : dict V) : JobBuilder :=
  {| builder_mapper := builder_mapper self;
     builder_args := builder_args self ++ [args];
     builder_kwargs := builder_kwargs self ++ [kwargs];
     _result := _result self |}.

(** [JobBuilder.__exit__]: the star-map of the calls noted, whether the
    block raised or not. *)
Definition JobBuilder_exit (fuel : nat) (self : JobBuilder) (fs : FS)
    (schedd : Schedd) : option (FS * Schedd * JobBuilder) :=
  '(fs, schedd, r) ←
    starmap fuel (builder_mapper self) (builder_args self)
      (builder_kwargs self) fs schedd;
  Some (fs, schedd,
        {| builder_mapper := builder_mapper self;
           builder_args := builder_args self;
           builder_kwargs := builder_kwargs self;
           _result := Some r |}).

(** The property [JobBuilder.result] *)
Definition JobBuilder_result (self : JobBuilder) : result MapResult :=
  match _result self with
  | None => Raise NoResultYet
  | Some r => Ok r
  end.

(** [JobBuilder.__len__] *)
Definition JobBuilder_len (self : JobBuilder) : nat :=
  length (builder_args self).

(** A [with mapper.build_job() as job] block whose body calls [job] once
    for each element of [calls]: the builder is made, called, and left. *)
Definition with_build_job (fuel : nat) (mapper : HTCMapper)
    (calls : list (list V * dict V)) (fs : FS) (schedd : Schedd)
    : option (FS * Schedd * JobBuilder) :=
  JobBuilder_exit fuel
    (foldl (λ job c, JobBuilder_call job c.1 c.2) (build_job mapper) calls)
    fs schedd.

(** *** The functions of the module

    [map(func, args, **kwargs)] is [htcmap(func).map(args, **kwargs)]; when
    [func] is not callable, [htcmap] returns its inner function, which has
    no attribute [map]. *)
Definition module_map (func : name_arg) (args : list V) (kwargs : dict V)
    (fs : FS) (schedd : Schedd) : result (FS * Schedd * MapResult) :=
  match htcmap func None fs with
  | Raise e => Raise e
  | Ok (Decorator _ _) => Raise AttributeError
  | Ok (Mapper fs m) => Ok (HTCMapper_map m args kwargs fs schedd)
  end.

(** ** [condormap.Job]

    The handle of [condormap.py]: the cluster, the job directory, the
    arguments by process id (a dict: the ids in the order they were put in)
    and the directory in which the outputs are looked for. *)
Record Job : Type := {
  Job_cluster : Z;
  Job_jobdir : Path;
  Job_jobid_to_arg : list (Z * V);
  Job_outputs_dir : Path
}.

(** [Job.__iter__]: for each process id, one second of sleep when the
    output is not there, then the output is opened, whether it has come or
    not, and loaded. *)
Fixpoint Job_iter_loop (disk : nat → FS) (self : Job) (procids : list Z)
    (now : nat) : gen Obj :=
  match procids with
  | [] => ([], None, now)
  | procid :: procids' =>
      let path := Job_outputs_dir self </> (pretty procid +:+ ".out") in
      let now := if path_exists (disk now) path then now else S now in
      match disk now !! path with
      | None => ([], Some FileNotFoundError, now)
      | Some blob =>
          gen_cons (loads blob) (Job_iter_loop disk self procids' now)
      end
  end.

Definition Job_iter (disk : nat → FS) (self : Job) (now : nat) : gen Obj :=
  Job_iter_loop disk self (Job_jobid_to_arg self).*1 now.

(** * Properties *)

(** ** The ragged zip *)

Lemma fmap_cons_Some {A : Type} (x : A) (o : option (list A)) (l : list A) :
  o = Some l → cons x <$> o = Some (x :: l).
Proof. by intros ->. Qed.

(** Once the keyword side is exhausted, every remaining positional tuple is
    paired with the empty mapping. *)
Lemma zip_loop_args_only (args : list (list V)) (fuel : nat) :
  (length args < fuel)%nat →
  zip_loop fuel (ListIter args) (Repeat fills1) 1
  = Some ((λ a, (a, [])) <$> args).
Proof.
  revert fuel. induction args as [|a args IH]; intros [|fuel] Hfuel;
    simpl in *; try lia; [done|].
  apply fmap_cons_Some, IH. lia.
Qed.

(** Once the positional side is exhausted, every remaining keyword mapping
    is paired with the empty tuple. *)
Lemma zip_loop_kwargs_only (kwargs : list (dict V)) (fuel : nat) :
  (length kwargs < fuel)%nat →
  zip_loop fuel (Repeat fills0) (ListIter kwargs) 1
  = Some ((λ k, ([], k)) <$> kwargs).
Proof.
  revert fuel. induction kwargs as [|k kwargs IH]; intros [|fuel] Hfuel;
    simpl in *; try lia; [done|].
  apply fmap_cons_Some, IH. lia.
Qed.

Lemma zip_replicate_l {A B : Type} (x : A) (l : list B) (n : nat) :
  n = length l → zip (replicate n x) l = (λ y, (x, y)) <$> l.
Proof.
  intros ->. induction l as [|y l IH]; simpl; [done|]. by rewrite IH.
Qed.

Lemma zip_replicate_r {A B : Type} (l : list A) (y : B) (n : nat) :
  n = length l → zip l (replicate n y) = (λ x, (x, y)) <$> l.
Proof.
  intros ->. induction l as [|x l IH]; simpl; [done|]. by rewrite IH.
Qed.

(** The generator in closed form: the shorter side is padded with its
    neutral element up to the length of the longer one. *)
Lemma zip_args_and_kwargs_closed (args : list (list V))
    (kwargs : list (dict V)) (fuel : nat) :
  (Nat.max (length args) (length kwargs) < fuel)%nat →
  zip_args_and_kwargs fuel args kwargs
  = Some (zip (args ++ replicate (length kwargs - length args) [])
              (kwargs ++ replicate (length args - length kwargs) [])).
Proof.
  unfold zip_args_and_kwargs. revert kwargs fuel.
  induction args as [|a args IH]; intros [|k kwargs] [|fuel] Hfuel;
    simpl in *; try lia.
  - done.
  - rewrite zip_loop_kwargs_only by lia. simpl.
    rewrite app_nil_r, zip_replicate_l by done. done.
  - rewrite zip_loop_args_only by lia. simpl.
    rewrite app_nil_r. by rewrite zip_replicate_r.
  - apply fmap_cons_Some, IH. lia.
Qed.

Lemma lookup_pad {A : Type} (l : list A) (n i : nat) (x : A) :
  (i < length l + n)%nat → (l ++ replicate n x) !! i = Some (default x (l !! i)).
Proof.
  intros Hi. destruct (decide (i < length l)%nat) as [Hlt|Hge].
  - rewrite lookup_app_l by done.
    destruct (lookup_lt_is_Some_2 l i Hlt) as [y Hy]. by rewrite Hy.
  - rewrite lookup_app_r by lia.
    rewrite lookup_replicate_2 by lia.
    by rewrite (lookup_ge_None_2 l i) by lia.
Qed.

(** ** The keyword product *)

Lemma zip_cycle_restart (dicts : list (dict V)) (saved : list V) :
  zip_cycle dicts [] saved = zip_cycle dicts saved saved.
Proof. by destruct dicts, saved. Qed.

(** One round of the cycle serves one block of copies of one dictionary. *)
Lemma zip_cycle_block (d : dict V) (pending saved : list V)
    (rest : list (dict V)) :
  zip_cycle (replicate (length pending) d ++ rest) pending saved
  = ((λ v, (d, v)) <$> pending) ++ zip_cycle rest [] saved.
Proof.
  induction pending as [|v pending IH]; simpl; [done|]. by rewrite IH.
Qed.

Lemma zip_cycle_bind (dicts : list (dict V)) (values : list V) :
  zip_cycle (d ← dicts; replicate (length values) d) values values
  = d ← dicts; (λ v, (d, v)) <$> values.
Proof.
  induction dicts as [|d dicts IH]; [done|].
  rewrite !bind_cons, zip_cycle_block, zip_cycle_restart. by rewrite IH.
Qed.

Lemma length_bind_const {A B C : Type} (f : A → list B) (g : A → list C)
    (l : list A) :
  (∀ x, length (f x) = length (g x)) → length (l ≫= f) = length (l ≫= g).
Proof.
  intros Hfg. induction l as [|x l IH]; [done|].
  rewrite !bind_cons, !length_app, Hfg. f_equal. apply IH.
Qed.

(** The body of the loop over the keywords, in closed form: every
    dictionary is replaced by its extensions with each value, in order. *)
Lemma product_step_closed (dicts : list (dict V)) (key : string)
    (values : list V) :
  product_step dicts key values
  = d ← dicts; (λ v, dict_set d key v) <$> values.
Proof.
  unfold product_step. rewrite zip_cycle_bind.
  rewrite drop_ge, app_nil_r.
  - induction dicts as [|d dicts IH]; [done|].
    rewrite !bind_cons, fmap_app, IH. f_equal.
    by rewrite <-list_fmap_compose.
  - apply Nat.eq_le_incl, length_bind_const.
    intros d. by rewrite length_replicate, length_fmap.
Qed.

Lemma foldl_product_step (kwargs : dict (list V)) (dicts : list (dict V)) :
  foldl (λ dicts kv, product_step dicts kv.1 kv.2) dicts kwargs
  = d ← dicts; nested_product d kwargs.
Proof.
  revert dicts. induction kwargs as [|[key values] kwargs IH]; intros dicts.
  - simpl. induction dicts as [|d dicts IHd]; [done|].
    rewrite bind_cons. simpl. by rewrite <-IHd.
  - simpl. rewrite IH, product_step_closed.
    induction dicts as [|d dicts IHd]; [done|].
    rewrite !bind_cons, bind_app, IHd. f_equal.
    by rewrite list_fmap_bind.
Qed.

Lemma product_dicts_nested (kwargs : dict (list V)) :
  product_dicts kwargs = nested_product [] kwargs.
Proof.
  unfold product_dicts. rewrite foldl_product_step.
  rewrite bind_cons. simpl. by rewrite app_nil_r.
Qed.

(** ** Strings and paths *)

Lemma append_String (c : ascii) (s t : string) :
  String c s +:+ t = String c (s +:+ t).
Proof. reflexivity. Qed.

Lemma list_ascii_of_append (s t : string) :
  String.list_ascii_of_string (s +:+ t)
  = String.list_ascii_of_string s ++ String.list_ascii_of_string t.
Proof.
  induction s as [|c s IH]; [done|].
  rewrite append_String. simpl. by rewrite IH.
Qed.

(** A file name determines its stem. *)
Lemma append_inj_r (s1 s2 t : string) : s1 +:+ t = s2 +:+ t → s1 = s2.
Proof.
  intros Heq. apply (f_equal String.list_ascii_of_string) in Heq.
  rewrite !list_ascii_of_append in Heq. apply app_inv_tail in Heq.
  rewrite <-(String.string_of_list_ascii_of_string s1).
  rewrite <-(String.string_of_list_ascii_of_string s2). by rewrite Heq.
Qed.

Lemma path_div_inj (p q : Path) (s t : string) :
  p </> s = q </> t → p = q ∧ s = t.
Proof. unfold path_div. intros Heq. by apply app_inj_tail in Heq. Qed.

Lemma output_path_inj (self : HTCMapper) (h h' : string) :
  output_path self h = output_path self h' → h = h'.
Proof.
  unfold output_path. intros [_ Heq]%path_div_inj. by apply append_inj_r in Heq.
Qed.

Lemma input_path_inj (self : HTCMapper) (h h' : string) :
  input_path self h = input_path self h' → h = h'.
Proof.
  unfold input_path. intros [_ Heq]%path_div_inj. by apply append_inj_r in Heq.
Qed.

(** Inputs, outputs and manifests live in three different directories. *)
Lemma input_path_not_output (self : HTCMapper) (h h' : string) :
  input_path self h ≠ output_path self h'.
Proof.
  unfold input_path, output_path, inputs_dir, outputs_dir.
  intros [[_ Heq]%path_div_inj _]%path_div_inj. discriminate.
Qed.

Lemma manifest_path_not_input (self : HTCMapper) (clusterid : Z)
    (h : string) :
  manifest_path self clusterid ≠ input_path self h.
Proof.
  unfold manifest_path, input_path, hashes_dir, inputs_dir.
  intros [[_ Heq]%path_div_inj _]%path_div_inj. discriminate.
Qed.

(** ** The loop of the submission planner *)

(** Writing an input blob does not change which outputs exist. *)
Lemma path_exists_insert_input (self : HTCMapper) (fs : FS) (h h' b : string) :
  path_exists (<[input_path self h := b]> fs) (output_path self h')
  = path_exists fs (output_path self h').
Proof.
  unfold path_exists. by rewrite lookup_insert_ne by apply input_path_not_output.
Qed.

Lemma _map_loop_hashes (self : HTCMapper)
    (items : list (list V * dict V)) (fs : FS) (hs nhs : list string) :
  (_map_loop self items fs hs nhs).1.2 = hs ++ (fingerprint <$> items).
Proof.
  revert fs hs nhs. induction items as [|item items IH]; intros fs hs nhs.
  - simpl. by rewrite app_nil_r.
  - simpl. destruct (path_exists fs _); rewrite IH, <-app_assoc; done.
Qed.

(** The batch is the subsequence of the fingerprints without output, in
    the order of the request. *)
Lemma _map_loop_new_hashes (self : HTCMapper)
    (items : list (list V * dict V)) (fs : FS) (hs nhs : list string) :
  (_map_loop self items fs hs nhs).2
  = nhs ++ filter (λ h, ¬ path_exists fs (output_path self h))
             (fingerprint <$> items).
Proof.
  revert fs hs nhs. induction items as [|item items IH]; intros fs hs nhs.
  - simpl. by rewrite app_nil_r.
  - simpl. fold (fingerprint item).
    destruct (path_exists fs (output_path self (fingerprint item))) eqn:Hex.
    + rewrite IH. rewrite filter_cons_False; [done|].
      rewrite Hex. by intros Hn; apply Hn.
    + rewrite IH. rewrite filter_cons_True by (rewrite Hex; by intros []).
      rewrite <-app_assoc. simpl. do 2 f_equal.
      apply list_filter_iff. intros h. by rewrite path_exists_insert_input.
Qed.

(** The loop writes nothing but the input blobs of the items without
    output. *)
Lemma _map_loop_store (self : HTCMapper)
    (items : list (list V * dict V)) (fs : FS) (hs nhs : list string)
    (p : Path) :
  (∀ item, item ∈ items →
     ¬ path_exists fs (output_path self (fingerprint item)) →
     input_path self (fingerprint item) ≠ p) →
  (_map_loop self items fs hs nhs).1.1 !! p = fs !! p.
Proof.
  revert fs hs nhs. induction items as [|item items IH]; intros fs hs nhs Hp.
  - done.
  - simpl. fold (fingerprint item).
    destruct (path_exists fs (output_path self (fingerprint item))) eqn:Hex.
    + apply IH. intros item' Hin. apply Hp. by right.
    + rewrite IH.
      * apply lookup_insert_ne, (Hp item); [by left|].
        rewrite Hex. by intros [].
      * intros item' Hin. rewrite path_exists_insert_input.
        apply Hp. by right.
Qed.

(** The store after the loop: the input blob of each item without output
    has been written, in request order, and nothing else. *)
Lemma _map_loop_writes (self : HTCMapper)
    (items : list (list V * dict V)) (fs : FS) (hs nhs : list string) :
  (_map_loop self items fs hs nhs).1.1
  = foldl (λ fs item, <[input_path self (fingerprint item) := to_bytes item]> fs)
      fs
      (filter (λ item, ¬ path_exists fs (output_path self (fingerprint item)))
         items).
Proof.
  revert fs hs nhs. induction items as [|item items IH]; intros fs hs nhs.
  - done.
  - simpl. fold (fingerprint item).
    destruct (path_exists fs (output_path self (fingerprint item))) eqn:Hex.
    + rewrite IH. rewrite filter_cons_False; [done|].
      rewrite Hex. by intros Hn; apply Hn.
    + rewrite IH. rewrite filter_cons_True by (rewrite Hex; by intros []).
      simpl. f_equal.
      apply list_filter_iff. intros item'.
      by rewrite path_exists_insert_input.
Qed.

(** With every output in place the loop leaves the store as it is. *)
Lemma _map_loop_all_satisfied (self : HTCMapper)
    (items : list (list V * dict V)) (fs : FS) (hs nhs : list string) :
  Forall (λ item, path_exists fs (output_path self (fingerprint item))) items →
  _map_loop self items fs hs nhs = (fs, hs ++ (fingerprint <$> items), nhs).
Proof.
  revert hs nhs. induction items as [|item items IH]; intros hs nhs Hall.
  - simpl. by rewrite app_nil_r.
  - apply Forall_cons in Hall as [Hitem Hall]. simpl.
    fold (fingerprint item). destruct (path_exists fs _); [|done].
    rewrite IH by done. by rewrite <-app_assoc.
Qed.

(** ** The manifest: written with [join], read back line by line *)

Lemma hex_char_not_CR (c : ascii) : is_hex_char c → Ascii.eqb c CR = false.
Proof. by destruct c as [[] [] [] [] [] [] [] []]. Qed.

Lemma hex_char_not_LF (c : ascii) : is_hex_char c → Ascii.eqb c LF = false.
Proof. by destruct c as [[] [] [] [] [] [] [] []]. Qed.

Lemma hex_char_not_space (c : ascii) : is_hex_char c → is_space c = false.
Proof. by destruct c as [[] [] [] [] [] [] [] []]. Qed.

Lemma is_hex_all_hex (h : string) : is_hex h → all_hex h.
Proof. by destruct h. Qed.

Lemma is_hex_nonempty (h : string) : is_hex h → h ≠ EmptyString.
Proof. by destruct h. Qed.

Lemma universal_newlines_hex (h rest : string) :
  all_hex h →
  universal_newlines (h +:+ rest) = h +:+ universal_newlines rest.
Proof.
  induction h as [|c h IH]; [done|]. simpl.
  intros [Hc Hh]%andb_True. rewrite !append_String. simpl.
  rewrite hex_char_not_CR by done. by rewrite IH.
Qed.

Lemma universal_newlines_hex_only (h : string) :
  all_hex h → universal_newlines h = h.
Proof.
  induction h as [|c h IH]; [done|]. simpl.
  intros [Hc Hh]%andb_True. rewrite hex_char_not_CR by done. by rewrite IH.
Qed.

Lemma NL_append (s : string) : NL +:+ s = String LF s.
Proof. reflexivity. Qed.

Lemma universal_newlines_LF (s : string) :
  universal_newlines (String LF s) = String LF (universal_newlines s).
Proof. reflexivity. Qed.

Lemma universal_newlines_join (hs : list string) :
  Forall (λ h, is_hex h) hs → universal_newlines (join NL hs) = join NL hs.
Proof.
  induction hs as [|h [|h' hs] IH]; intros Hall; [done|..].
  - simpl. apply Forall_cons in Hall as [Hh%is_hex_all_hex _].
    by apply universal_newlines_hex_only.
  - apply Forall_cons in Hall as [Hh%is_hex_all_hex Hall].
    change (join NL (h :: h' :: hs)) with (h +:+ NL +:+ join NL (h' :: hs)).
    rewrite universal_newlines_hex by done.
    by rewrite !NL_append, universal_newlines_LF, IH.
Qed.

Lemma split_lines_hex_line (h rest : string) :
  all_hex h →
  split_lines (h +:+ String LF rest) = (h +:+ NL) :: split_lines rest.
Proof.
  induction h as [|c h IH]; [done|]. simpl.
  intros [Hc Hh]%andb_True. rewrite !append_String. simpl.
  rewrite hex_char_not_LF by done. by rewrite IH.
Qed.

Lemma split_lines_hex_last (h : string) :
  all_hex h → h ≠ EmptyString → split_lines h = [h].
Proof.
  induction h as [|c h IH]; [done|]. simpl.
  intros [Hc Hh]%andb_True _. rewrite hex_char_not_LF by done.
  destruct h as [|c' h]; [done|]. by rewrite IH.
Qed.

Lemma lstrip_hex (h rest : string) :
  is_hex h → lstrip (h +:+ rest) = h +:+ rest.
Proof.
  destruct h as [|c h]; [done|]. simpl. intros [Hc _]%andb_True.
  rewrite append_String. simpl. by rewrite hex_char_not_space.
Qed.

Lemma rstrip_hex (h : string) : all_hex h → rstrip h = h.
Proof.
  induction h as [|c h IH]; [done|]. simpl.
  intros [Hc Hh]%andb_True. rewrite IH by done.
  destruct h; [|done]. by rewrite hex_char_not_space.
Qed.

Lemma rstrip_hex_line (h : string) : all_hex h → rstrip (h +:+ NL) = h.
Proof.
  induction h as [|c h IH]; [done|]. simpl.
  intros [Hc Hh]%andb_True. rewrite ?append_String. simpl.
  rewrite IH by done. destruct h; [|done]. by rewrite hex_char_not_space.
Qed.

Lemma strip_hex (h : string) : is_hex h → strip h = h.
Proof.
  intros Hh. unfold strip.
  assert (lstrip h = h) as ->.
  { destruct h as [|c h]; [done|]. simpl in *.
    apply andb_True in Hh as [Hc _]. by rewrite hex_char_not_space. }
  by apply rstrip_hex, is_hex_all_hex.
Qed.

Lemma strip_hex_line (h : string) : is_hex h → strip (h +:+ NL) = h.
Proof.
  intros Hh. unfold strip. rewrite lstrip_hex by done.
  by apply rstrip_hex_line, is_hex_all_hex.
Qed.

(** Reading the manifest back gives the fingerprints that were written. *)
Lemma manifest_lines_join (hs : list string) :
  Forall (λ h, is_hex h) hs → strip <$> file_lines (join NL hs) = hs.
Proof.
  intros Hall. unfold file_lines. rewrite universal_newlines_join by done.
  induction hs as [|h [|h' hs] IH]; [done|..].
  - apply Forall_cons in Hall as [Hh _]. simpl.
    rewrite split_lines_hex_last
      by auto using is_hex_all_hex, is_hex_nonempty.
    simpl. by rewrite strip_hex.
  - apply Forall_cons in Hall as [Hh Hall].
    change (join NL (h :: h' :: hs)) with (h +:+ NL +:+ join NL (h' :: hs)).
    rewrite NL_append, split_lines_hex_line by by apply is_hex_all_hex.
    rewrite fmap_cons, IH by done. by rewrite strip_hex_line.
Qed.

(** ** The submission planner *)

(** [_map] in one equation: the fingerprints without output at the time of
    the call make the batch; without any there is no submission. *)
Lemma _map_unfold (self : HTCMapper) (items : list (list V * dict V))
    (fs : FS) (schedd : Schedd) :
  let hs := fingerprint <$> items in
  let new := filter (λ h, ¬ path_exists fs (output_path self h)) hs in
  let fs' := (_map_loop self items fs [] []).1.1 in
  _map self items fs schedd
  = match new with
    | [] => (fs', schedd, MapResult_init self None hs)
    | _ :: _ =>
        (<[manifest_path self (next_clusterid schedd) := join NL hs]> fs',
         {| next_clusterid := next_clusterid schedd + 1;
            queued := queued schedd
                      ++ [(next_clusterid schedd, name self, new)] |},
         MapResult_init self (Some (next_clusterid schedd)) hs)
    end.
Proof.
  intros hs new fs'. unfold _map.
  pose proof (_map_loop_hashes self items fs [] []) as Hhs.
  pose proof (_map_loop_new_hashes self items fs [] []) as Hnew.
  subst fs'. destruct (_map_loop self items fs [] []) as [[fs' hs'] new'].
  simpl in *. subst hs' new'. fold hs. fold new. by destruct new.
Qed.

Lemma _map_hashes (self : HTCMapper) (items : list (list V * dict V))
    (fs : FS) (schedd : Schedd) :
  hashes (_map self items fs schedd).2 = fingerprint <$> items.
Proof. rewrite _map_unfold. simpl. by destruct (filter _ _). Qed.

(** With the output of every item in place, [_map] touches neither the
    store nor the scheduler. *)
Lemma _map_all_satisfied (self : HTCMapper) (items : list (list V * dict V))
    (fs : FS) (schedd : Schedd) :
  Forall (λ h, path_exists fs (output_path self h)) (fingerprint <$> items) →
  _map self items fs schedd
  = (fs, schedd, MapResult_init self None (fingerprint <$> items)).
Proof.
  intros Hall. unfold _map. rewrite _map_loop_all_satisfied; [done|].
  apply Forall_forall. intros item Hin. rewrite Forall_forall in Hall.
  by apply Hall, list_elem_of_fmap_2.
Qed.

(** C1 (as amended).  For every invocation of [_map]: the handle holds the
    fingerprint of every item in request order; the batch handed to the
    scheduler holds the fingerprints whose output blob is missing, in
    order, and no batch is queued when there is none; the store is written
    at the input paths of the unsatisfied items (and at the manifest of a
    new cluster) and nowhere else, so the input blob of an item whose
    output exists is left as it was; when every item is
    satisfied the store and the scheduler are unchanged and the handle has
    no cluster id.  Invoking the map again with the same arguments submits
    nothing, provided that the output blob of every item exists by then. *)
Theorem planner_skips_satisfied_items (self : HTCMapper)
    (items : list (list V * dict V)) (fs : FS) (schedd : Schedd) :
  let satisfied h := path_exists fs (output_path self h) in
  let new := filter (λ h, ¬ satisfied h) (fingerprint <$> items) in
  ∃ fs' schedd' r,
    _map self items fs schedd = (fs', schedd', r)
    ∧ hashes r = fingerprint <$> items
    ∧ queued schedd'
      = queued schedd
        ++ match new with
           | [] => []
           | _ :: _ => [(next_clusterid schedd, name self, new)]
           end
    ∧ (let written :=
         foldl (λ fs item,
                  <[input_path self (fingerprint item) := to_bytes item]> fs)
           fs (filter (λ item, ¬ satisfied (fingerprint item)) items) in
       fs' = match new with
             | [] => written
             | _ :: _ =>
                 <[manifest_path self (next_clusterid schedd)
                   := join NL (hashes r)]> written
             end)
    ∧ (∀ item, item ∈ items → satisfied (fingerprint item) →
         fs' !! input_path self (fingerprint item)
         = fs !! input_path self (fingerprint item))
    ∧ (Forall satisfied (fingerprint <$> items) →
         fs' = fs ∧ schedd' = schedd ∧ clusterid r = None)
    ∧ (∀ fs2 schedd2,
         Forall (λ h, path_exists fs2 (output_path self h)) (hashes r) →
         _map self items fs2 schedd2
         = (fs2, schedd2, MapResult_init self None (hashes r))).
Proof.
  intros satisfied new.
  destruct (_map self items fs schedd) as [[fs' schedd'] r] eqn:Hmap.
  exists fs', schedd', r. split; [done|].
  assert (hashes r = fingerprint <$> items) as Hhs.
  { by rewrite <-(_map_hashes self items fs schedd), Hmap. }
  split; [done|]. split; [|split; [|split; [|split]]].
  - rewrite _map_unfold in Hmap. subst new satisfied. simpl in *.
    destruct (filter _ _); simplify_eq/=; [by rewrite app_nil_r|done].
  - rewrite _map_unfold in Hmap. subst new satisfied. simpl in *.
    rewrite _map_loop_writes in Hmap.
    destruct (filter _ (fingerprint <$> items)); by simplify_eq/=.
  - intros item Hin Hsat. rewrite _map_unfold in Hmap. simpl in Hmap.
    assert ((_map_loop self items fs [] []).1.1
              !! input_path self (fingerprint item)
            = fs !! input_path self (fingerprint item)) as Hloop.
    { apply _map_loop_store. intros item' _ Hunsat Heq.
      apply input_path_inj in Heq. apply Hunsat. by rewrite Heq. }
    destruct (filter _ _); simplify_eq/=; [done|].
    by rewrite lookup_insert_ne by apply manifest_path_not_input.
  - intros Hall. rewrite _map_all_satisfied in Hmap by done.
    by simplify_eq/=.
  - intros fs2 schedd2 Hall. rewrite Hhs in *. by apply _map_all_satisfied.
Qed.

(** C2.  When at least one item is unsatisfied, [_map] returns with the
    manifest of the new cluster id on disk, holding the full fingerprint
    sequence (satisfied and unsatisfied items, in request order), and
    [from_clusterid] rebuilds from that cluster id alone the handle that
    [_map] returned, so in particular the same [hashes].  The fingerprints
    are hex digests, as [htcio.hash_bytes] makes them. *)
Theorem manifest_round_trip (self : HTCMapper)
    (items : list (list V * dict V)) (fs : FS) (schedd : Schedd) :
  Forall (λ item, is_hex (fingerprint item)) items →
  Exists (λ item, ¬ path_exists fs (output_path self (fingerprint item)))
    items →
  ∃ fs' schedd' r cid,
    _map self items fs schedd = (fs', schedd', r)
    ∧ clusterid r = Some cid
    ∧ hashes r = fingerprint <$> items
    ∧ fs' !! manifest_path self cid = Some (join NL (hashes r))
    ∧ from_clusterid self cid fs' = Ok r.
Proof.
  intros Hhex Hunsat. rewrite _map_unfold. simpl.
  destruct (filter _ _) as [|h new] eqn:Hnew.
  { exfalso. apply Exists_exists in Hunsat as (item & Hin & Hitem).
    assert (fingerprint item ∈ @nil string) as Hnil; [|by inversion Hnil].
    rewrite <-Hnew. apply list_elem_of_filter. split; [done|].
    by apply list_elem_of_fmap_2. }
  eexists _, _, _, (next_clusterid schedd). split; [done|].
  simpl. split; [done|]. split; [done|].
  rewrite lookup_insert_eq. split; [done|].
  unfold from_clusterid. rewrite lookup_insert_eq.
  rewrite manifest_lines_join; [done|].
  apply Forall_forall. intros h' (item & -> & Hin)%list_elem_of_fmap_1.
  rewrite Forall_forall in Hhex. by apply Hhex.
Qed.

(** ** The map builders *)

Lemma _map_returns (self : HTCMapper) (items : list (list V * dict V))
    (fs : FS) (schedd : Schedd) :
  ∃ fs' schedd' r,
    _map self items fs schedd = (fs', schedd', r)
    ∧ hashes r = fingerprint <$> items.
Proof.
  destruct (_map self items fs schedd) as [[fs' schedd'] r] eqn:Hmap.
  exists fs', schedd', r. split; [done|].
  by rewrite <-(_map_hashes self items fs schedd), Hmap.
Qed.

Lemma starmap_returns (fuel : nat) (self : HTCMapper) (args : list (list V))
    (kwargs : list (dict V)) (items : list (list V * dict V)) (fs : FS)
    (schedd : Schedd) :
  zip_args_and_kwargs fuel args kwargs = Some items →
  ∃ fs' schedd' r,
    starmap fuel self args kwargs fs schedd = Some (fs', schedd', r)
    ∧ hashes r = fingerprint <$> items.
Proof.
  intros Hzip. unfold starmap. rewrite Hzip.
  destruct (_map_returns self items fs schedd) as (fs' & schedd' & r & Hmap & Hhs).
  exists fs', schedd', r. split; [|done].
  change (Some (_map self items fs schedd) = Some (fs', schedd', r)).
  by rewrite Hmap.
Qed.

(** C3.  For finite iterables of [m] positional tuples and [n] keyword
    mappings, [zip_args_and_kwargs] (given fuel for its loop) yields exactly
    [max m n] pairs; pair [i] holds the [i]-th element of each iterable,
    with the empty tuple or the empty mapping in place of an element of an
    exhausted iterable; and [starmap] plans one work item for each of these
    pairs. *)
Theorem zip_args_and_kwargs_ragged (args : list (list V))
    (kwargs : list (dict V)) (fuel : nat) :
  (Nat.max (length args) (length kwargs) < fuel)%nat →
  ∃ pairs,
    zip_args_and_kwargs fuel args kwargs = Some pairs
    ∧ length pairs = Nat.max (length args) (length kwargs)
    ∧ (∀ i, (i < Nat.max (length args) (length kwargs))%nat →
         pairs !! i = Some (default [] (args !! i), default [] (kwargs !! i)))
    ∧ ∀ self fs schedd,
        ∃ fs' schedd' r,
          starmap fuel self args kwargs fs schedd = Some (fs', schedd', r)
          ∧ hashes r = fingerprint <$> pairs
          ∧ length (hashes r) = Nat.max (length args) (length kwargs).
Proof.
  intros Hfuel. eexists. split; [by apply zip_args_and_kwargs_closed|].
  assert (length (zip (args ++ replicate (length kwargs - length args) [])
                      (kwargs ++ replicate (length args - length kwargs) []))
          = Nat.max (length args) (length kwargs)) as Hlen.
  { rewrite length_zip_with, !length_app, !length_replicate. lia. }
  split; [done|]. split.
  - intros i Hi. rewrite lookup_zip_with.
    rewrite !lookup_pad by lia. done.
  - intros self fs schedd.
    destruct (starmap_returns fuel self args kwargs _ fs schedd
                (zip_args_and_kwargs_closed args kwargs fuel Hfuel))
      as (fs' & schedd' & r & Hstar & Hhs).
    exists fs', schedd', r. split; [done|]. split; [done|].
    by rewrite Hhs, length_fmap.
Qed.

(** C4 (as amended).  Star-mapping three positional tuples against one
    keyword mapping yields three work items: the first uses the sole
    keyword mapping, the other two the empty mapping.  Star-mapping one
    positional tuple against three keyword mappings yields three work
    items: the first uses the sole positional tuple, the other two the
    empty tuple. *)
Theorem starmap_ragged_three_one (a1 a2 a3 : list V) (k1 k2 k3 : dict V)
    (fuel : nat) (self : HTCMapper) (fs : FS) (schedd : Schedd) :
  zip_args_and_kwargs (4 + fuel) [a1; a2; a3] [k1]
  = Some [(a1, k1); (a2, []); (a3, [])]
  ∧ zip_args_and_kwargs (4 + fuel) [a1] [k1; k2; k3]
    = Some [(a1, k1); ([], k2); ([], k3)]
  ∧ (∃ fs' schedd' r,
       starmap (4 + fuel) self [a1; a2; a3] [k1] fs schedd
       = Some (fs', schedd', r)
       ∧ hashes r = fingerprint <$> [(a1, k1); (a2, []); (a3, [])])
  ∧ (∃ fs' schedd' r,
       starmap (4 + fuel) self [a1] [k1; k2; k3] fs schedd
       = Some (fs', schedd', r)
       ∧ hashes r = fingerprint <$> [(a1, k1); ([], k2); ([], k3)]).
Proof.
  assert (zip_args_and_kwargs (4 + fuel) [a1; a2; a3] [k1]
          = Some [(a1, k1); (a2, []); (a3, [])]) as H31.
  { rewrite zip_args_and_kwargs_closed by (simpl; lia). done. }
  assert (zip_args_and_kwargs (4 + fuel) [a1] [k1; k2; k3]
          = Some [(a1, k1); ([], k2); ([], k3)]) as H13.
  { rewrite zip_args_and_kwargs_closed by (simpl; lia). done. }
  split; [done|]. split; [done|]. split.
  - by apply starmap_returns.
  - by apply starmap_returns.
Qed.

(** C5.  [productmap] with the value lists [x = [x1, x2]] and
    [y = [y1, y2]] plans exactly four work items, with the keyword mappings
    [{x: x1, y: y1}], [{x: x1, y: y2}], [{x: x2, y: y1}], [{x: x2, y: y2}]
    in this order.  For any value lists the mappings are those of the
    nested loops over the keys, the first key outermost and the last key
    varying fastest, each work item pairing one of them with the constant
    positional tuple; being a function of the arguments alone (no store,
    no scheduler state), the order is the same on every call. *)
Theorem productmap_nested_order (self : HTCMapper) (args : list V)
    (kwargs : dict (list V)) (fs : FS) (schedd : Schedd) :
  (∀ x1 x2 y1 y2 : V,
     productmap_items args [("x", [x1; x2]); ("y", [y1; y2])]
     = [(args, [("x", x1); ("y", y1)]); (args, [("x", x1); ("y", y2)]);
        (args, [("x", x2); ("y", y1)]); (args, [("x", x2); ("y", y2)])])
  ∧ productmap_items args kwargs
    = (λ d, (args, d)) <$> nested_product [] kwargs
  ∧ hashes (productmap self args kwargs fs schedd).2
    = (λ d, fingerprint (args, d)) <$> nested_product [] kwargs
  ∧ ∀ fs2 schedd2,
      hashes (productmap self args kwargs fs2 schedd2).2
      = hashes (productmap self args kwargs fs schedd).2.
Proof.
  split; [done|]. split.
  { unfold productmap_items. by rewrite product_dicts_nested. }
  assert (∀ fs schedd,
            hashes (productmap self args kwargs fs schedd).2
            = (λ d, fingerprint (args, d)) <$> nested_product [] kwargs)
    as Hhs.
  { intros fs0 schedd0. unfold productmap. rewrite _map_hashes.
    unfold productmap_items. rewrite product_dicts_nested.
    by rewrite <-list_fmap_compose. }
  split; [apply Hhs|]. intros fs2 schedd2. by rewrite !Hhs.
Qed.

(** ** The decorator *)

(** Applied to a plain function or to a mapper of a plain function,
    [wrapper] builds a mapper of that plain function, named after it unless
    a name was given. *)
Lemma wrapper_mapper (name0 : name_arg) (sd : option (dict string))
    (decorated : callable) (f : F) (fs : FS) :
  decorated = PlainFunc f
  ∨ (∃ m, decorated = MapperObj m ∧ func m = PlainFunc f) →
  ∃ fs' m',
    wrapper name0 sd decorated fs = Ok (fs', m')
    ∧ func m' = PlainFunc f
    ∧ name m' = match name0 with NameStr s => s | _ => func_name f end.
Proof.
  intros Hdecorated. unfold wrapper.
  assert (match decorated with
          | MapperObj m => func m
          | PlainFunc _ => decorated
          end = PlainFunc f) as ->.
  { by destruct Hdecorated as [->|(m & -> & Hm)]. }
  unfold HTCMapper_init. simpl.
  destruct name0; destruct (path_exists fs _); by eexists _, _.
Qed.

(** C10.  Decorating a plain function [f] and decorating the result again
    gives an [HTCMapper] whose [func] is [f] itself, never the first (or
    any) mapper; its name is again the name of [f]. *)
Theorem htcmap_idempotent (f : F) (sd sd' : option (dict string)) (fs : FS) :
  ∃ fs1 m1 fs2 m2,
    htcmap (NameCallable (PlainFunc f)) sd fs = Ok (Mapper fs1 m1)
    ∧ htcmap (NameCallable (MapperObj m1)) sd' fs1 = Ok (Mapper fs2 m2)
    ∧ func m1 = PlainFunc f
    ∧ func m2 = PlainFunc f
    ∧ (∀ m, func m2 ≠ MapperObj m)
    ∧ name m2 = func_name f.
Proof.
  destruct (wrapper_mapper (NameCallable (PlainFunc f)) sd (PlainFunc f) f fs)
    as (fs1 & m1 & Hw1 & Hf1 & _); [by left|].
  destruct (wrapper_mapper (NameCallable (MapperObj m1)) sd' (MapperObj m1)
              f fs1) as (fs2 & m2 & Hw2 & Hf2 & Hn2); [right; by exists m1|].
  exists fs1, m1, fs2, m2. unfold htcmap. rewrite Hw1, Hw2, Hf2.
  by repeat split.
Qed.

(** ** Waiting for an output *)

Lemma path_exists_None (fs : FS) (p : Path) :
  fs !! p = None → path_exists fs p = false.
Proof.
  intros Hp. unfold path_exists. apply bool_decide_eq_false.
  rewrite Hp. by intros [? ?].
Qed.

Lemma path_exists_Some (fs : FS) (p : Path) (b : string) :
  fs !! p = Some b → path_exists fs p = true.
Proof.
  intros Hp. unfold path_exists. apply bool_decide_eq_true. by rewrite Hp.
Qed.

(** A path that never shows up: the wait gives up at the first check made
    once the timeout has elapsed, at once when the timeout is not positive. *)
Lemma wait_loop_never (disk : nat → FS) (path : Path) (z : Z)
    (start : nat) (fuel now : nat) :
  (∀ t, disk t !! path = None) →
  (start ≤ now ≤ start + Z.to_nat z)%nat →
  (start + Z.to_nat z - now < fuel)%nat →
  wait_loop fuel disk path (Some z) start now
  = Some (Raise TimeoutError, (start + Z.to_nat z)%nat).
Proof.
  intros Hnever. revert now.
  induction fuel as [|fuel IH]; intros now Hnow Hfuel; [lia|].
  simpl. rewrite path_exists_None by done.
  destruct (decide (now = start + Z.to_nat z)%nat) as [->|Hne].
  - assert ((z <=? Z.of_nat (start + Z.to_nat z) - Z.of_nat start) = true)
      as -> by (apply Z.leb_le; lia).
    done.
  - assert ((z <=? Z.of_nat now - Z.of_nat start) = false)
      as -> by (apply Z.leb_gt; lia).
    apply IH; lia.
Qed.

(** A path that shows up at time [a], with no timeout striking before. *)
Lemma wait_loop_arrives (disk : nat → FS) (path : Path) (timeout : option Z)
    (start a : nat) (b : string) (fuel now : nat) :
  (now ≤ a)%nat →
  (∀ t, (now ≤ t < a)%nat → disk t !! path = None) →
  disk a !! path = Some b →
  (∀ t, (now ≤ t < a)%nat → timed_out timeout start t = false) →
  (a - now < fuel)%nat →
  wait_loop fuel disk path timeout start now = Some (Ok (), a).
Proof.
  intros Hle Hbefore Hat Htimeout. revert now Hle Hbefore Htimeout.
  induction fuel as [|fuel IH]; intros now Hle Hbefore Htimeout Hfuel; [lia|].
  simpl. destruct (decide (now = a)) as [->|Hne].
  - by rewrite (path_exists_Some _ _ b).
  - rewrite path_exists_None by (apply Hbefore; lia).
    rewrite Htimeout by lia.
    apply IH; [lia| | |lia]; intros t Ht; [apply Hbefore|apply Htimeout]; lia.
Qed.

(** ** [MapResult.get] *)

Lemma tuple_index_out_of_range {A : Type} (t : list A) (i : Z) :
  i < - Z.of_nat (length t) ∨ Z.of_nat (length t) ≤ i →
  tuple_index t i = Raise IndexError.
Proof.
  intros Hi. unfold tuple_index.
  set (j := if i <? 0 then i + Z.of_nat (length t) else i).
  assert (j < 0 ∨ Z.of_nat (length t) ≤ j) as Hj
    by (subst j; destruct (Z.ltb_spec i 0); lia).
  destruct (Z.ltb_spec j 0), (Z.leb_spec (Z.of_nat (length t)) j);
    simpl; try done; lia.
Qed.

Lemma tuple_index_in_range {A : Type} (t : list A) (i : Z) :
  - Z.of_nat (length t) ≤ i < Z.of_nat (length t) →
  ∃ x, tuple_index t i = Ok x ∧ x ∈ t.
Proof.
  intros Hi. unfold tuple_index.
  set (j := if i <? 0 then i + Z.of_nat (length t) else i).
  assert (0 ≤ j < Z.of_nat (length t)) as Hj
    by (subst j; destruct (Z.ltb_spec i 0); lia).
  destruct (Z.ltb_spec j 0), (Z.leb_spec (Z.of_nat (length t)) j);
    simpl; try lia.
  destruct (lookup_lt_is_Some_2 t (Z.to_nat j)) as [x Hx]; [lia|].
  rewrite Hx. exists x. split; [done|]. by eapply list_elem_of_lookup_2.
Qed.

(** [get] on an item of the handle is the wait on its output path, with
    the exception translated, followed by the load. *)
Lemma get_member (fuel : nat) (disk : nat → FS) (m : HTCMapper)
    (cid : option Z) (hs : list string) (item : IndexOrHash) (h : string)
    (timeout : option Z) (now : nat) :
  _item_to_hash (MapResult_init m cid hs) item = Ok h → h ∈ hs →
  get fuel disk (MapResult_init m cid hs) item timeout now
  = match wait_for_path_to_exist fuel disk (output_path m h) timeout now with
    | None => None
    | Some (Raise TimeoutError, t) =>
        match timeout with
        | Some z =>
            if z <=? 0 then Some (Raise OutputNotFound, t)
            else Some (Raise TimeoutError, t)
        | None => Some (Raise TypeError, t)
        end
    | Some (Raise e, t) => Some (Raise e, t)
    | Some (Ok _, t) => Some (load_object (disk t) (output_path m h), t)
    end.
Proof.
  intros Hitem Hin. unfold get. rewrite Hitem.
  rewrite bool_decide_eq_false_2; [done|].
  simpl. intros Hnot. apply Hnot. by apply elem_of_list_to_set.
Qed.

(** C6 (as amended).  For an item of the handle whose output blob never
    appears, [get] with timeout [z] fails with [OutputNotFound] when
    [z <= 0] (at once: timeout 0 is the non-blocking check of
    [__getitem__]) and with [TimeoutError] when [z > 0], once [z] seconds
    have elapsed.  So [OutputNotFound] replaces [TimeoutError] exactly when
    the timeout is zero or negative.  If the blob appears no later than the
    timeout allows, [get] returns the object loaded from it. *)
Theorem get_timeout_semantics (m : HTCMapper) (cid : option Z)
    (hs : list string) (item : IndexOrHash) (h : string) (disk : nat → FS)
    (now : nat) :
  _item_to_hash (MapResult_init m cid hs) item = Ok h →
  h ∈ hs →
  ((∀ t, disk t !! output_path m h = None) →
   (∀ (z : Z) (fuel : nat),
      (Z.to_nat z < fuel)%nat →
      get fuel disk (MapResult_init m cid hs) item (Some z) now
      = Some (Raise (if z <=? 0 then OutputNotFound else TimeoutError),
              (now + Z.to_nat z)%nat))
   ∧ getitem disk (MapResult_init m cid hs) item now
     = Some (Raise OutputNotFound, now))
  ∧ (∀ (a : nat) (b : string) (z : Z) (fuel : nat),
       (now ≤ a)%nat →
       Z.of_nat a - Z.of_nat now ≤ z →
       (a - now < fuel)%nat →
       (∀ t, (now ≤ t < a)%nat → disk t !! output_path m h = None) →
       disk a !! output_path m h = Some b →
       get fuel disk (MapResult_init m cid hs) item (Some z) now
       = Some (Ok (loads b), a)).
Proof.
  intros Hitem Hin. split.
  - intros Hnever.
    assert (∀ (z : Z) (fuel : nat),
              (Z.to_nat z < fuel)%nat →
              get fuel disk (MapResult_init m cid hs) item (Some z) now
              = Some (Raise (if z <=? 0 then OutputNotFound
                             else TimeoutError),
                      (now + Z.to_nat z)%nat)) as Hget.
    { intros z fuel Hfuel. rewrite (get_member _ _ _ _ _ _ h) by done.
      unfold wait_for_path_to_exist.
      rewrite wait_loop_never by (done || lia). by destruct (z <=? 0). }
    split; [done|]. unfold getitem. rewrite Hget by (simpl; lia).
    simpl. by rewrite Nat.add_0_r.
  - intros a b z fuel Hle Hz Hfuel Hbefore Hat.
    rewrite (get_member _ _ _ _ _ _ h) by done.
    unfold wait_for_path_to_exist.
    rewrite (wait_loop_arrives _ _ _ _ a b) by
      (done || (intros t Ht; simpl; apply Z.leb_gt; lia)).
    unfold load_object. by rewrite Hat.
Qed.

(** C8 (as amended).  For a fingerprint string that is not in the handle's
    sequence, [get] and [__getitem__] fail with [HashNotInResult].  An
    integer item is resolved by indexing the tuple of fingerprints before
    the membership test: an index outside [-len, len) fails with
    [IndexError], and an index inside it (negative ones count from the
    end) always denotes a member. *)
Theorem get_item_not_in_result (m : HTCMapper) (cid : option Z)
    (hs : list string) (disk : nat → FS) (fuel : nat) (timeout : option Z)
    (now : nat) :
  (∀ h, h ∉ hs →
     get fuel disk (MapResult_init m cid hs) (Hash h) timeout now
     = Some (Raise HashNotInResult, now)
     ∧ getitem disk (MapResult_init m cid hs) (Hash h) now
       = Some (Raise HashNotInResult, now))
  ∧ (∀ i, i < - Z.of_nat (length hs) ∨ Z.of_nat (length hs) ≤ i →
       get fuel disk (MapResult_init m cid hs) (Index i) timeout now
       = Some (Raise IndexError, now)
       ∧ getitem disk (MapResult_init m cid hs) (Index i) now
         = Some (Raise IndexError, now))
  ∧ (∀ i, - Z.of_nat (length hs) ≤ i < Z.of_nat (length hs) →
       ∃ h, _item_to_hash (MapResult_init m cid hs) (Index i) = Ok h
            ∧ h ∈ hash_set (MapResult_init m cid hs)).
Proof.
  split; [|split].
  - intros h Hh.
    assert (∀ fuel timeout,
              get fuel disk (MapResult_init m cid hs) (Hash h) timeout now
              = Some (Raise HashNotInResult, now)) as Hget.
    { intros fuel' timeout'. unfold get. simpl.
      rewrite bool_decide_eq_true_2; [done|].
      by rewrite elem_of_list_to_set. }
    split; [apply Hget|]. unfold getitem. apply Hget.
  - intros i Hi.
    assert (∀ fuel timeout,
              get fuel disk (MapResult_init m cid hs) (Index i) timeout now
              = Some (Raise IndexError, now)) as Hget.
    { intros fuel' timeout'. unfold get. simpl.
      by rewrite tuple_index_out_of_range. }
    split; [apply Hget|]. unfold getitem. apply Hget.
  - intros i Hi. simpl.
    destruct (tuple_index_in_range hs i Hi) as (h & Hidx & Hin).
    exists h. split; [done|]. by apply elem_of_list_to_set.
Qed.

(** ** The as-available loop *)

(** Python does not say in which order a [set] is walked; any order will
    do. *)
Hypothesis set_iter_perm :
  ∀ (K : Type) `{Countable K} (s : gset K), set_iter K s ≡ₚ elements s.

Section AsAvailable.
Context `{Countable K} {O : Type}.
Variable ready : FS → K → bool.
Variable load : FS → K → result O.
Variable val : K → O.

(** One scan yields the objects of the elements that are ready, in the
    order of the walk, and removes these elements from the set. *)
Lemma scan_ready (fs : FS) (todo : list K) (paths : gset K) :
  (∀ p, p ∈ todo → ready fs p → load fs p = Ok (val p)) →
  scan ready load fs todo paths
  = (paths ∖ list_to_set (filter (λ p, ready fs p) todo),
     val <$> filter (λ p, ready fs p) todo, None).
Proof.
  revert paths. induction todo as [|p todo IH]; intros paths Hload.
  - simpl. by rewrite difference_empty_L.
  - simpl. destruct (ready fs p) eqn:Hready; simpl.
    + rewrite Hload by (by left || by rewrite Hready).
      rewrite IH by (intros q Hq; apply Hload; by right).
      rewrite filter_cons_True by by rewrite Hready.
      simpl. by rewrite difference_difference_l_L.
    + rewrite IH by (intros q Hq; apply Hload; by right).
      rewrite filter_cons_False by (rewrite Hready; by intros []).
      done.
Qed.

Variable disk : nat → FS.
Variable arr : K → nat.

(** With every element ready from its arrival time on, the loop ends once
    the last one has arrived and has yielded each element's object exactly
    once. *)
Lemma as_available_loop_complete (fuel : nat) (paths : gset K) (now : nat) :
  (∀ p t, p ∈ paths → ready (disk t) p = bool_decide (arr p ≤ t)%nat) →
  (∀ p t, p ∈ paths → (arr p ≤ t)%nat → load (disk t) p = Ok (val p)) →
  (0 < fuel)%nat →
  (∀ p, p ∈ paths → (1 < fuel ∧ arr p + 1 < now + fuel)%nat) →
  ∃ ys t,
    as_available_loop ready load fuel disk paths now = Some (ys, None, t)
    ∧ ys ≡ₚ val <$> elements paths.
Proof.
  revert paths now.
  induction fuel as [|fuel IH]; intros paths now Hready Hload Hpos Hfuel;
    [lia|].
  simpl. case_bool_decide as Hsize.
  - pose proof (set_iter_perm K paths) as Hperm.
    rewrite scan_ready; last first.
    { intros p Hp Hr. apply Hload.
      - rewrite Hperm in Hp. by apply elem_of_elements in Hp.
      - rewrite Hready in Hr by (rewrite Hperm in Hp; by apply elem_of_elements in Hp).
        by apply bool_decide_unpack in Hr. }
    set (R := λ p : K, ready (disk now) p : Prop).
    set (paths' := paths ∖ list_to_set (filter R (set_iter K paths))).
    assert (∀ p, p ∈ paths' ↔ p ∈ paths ∧ (now < arr p)%nat) as Hpaths'.
    { intros p. subst paths' R. rewrite elem_of_difference, elem_of_list_to_set.
      rewrite list_elem_of_filter, Hperm, elem_of_elements.
      split.
      - intros [Hp Hnot]. split; [done|].
        destruct (decide (arr p ≤ now)%nat) as [Hle|]; [|lia].
        exfalso. apply Hnot. split; [|done].
        rewrite Hready by done. by apply bool_decide_pack.
      - intros [Hp Hlt]. split; [done|]. intros [Hr _].
        rewrite Hready in Hr by done. apply bool_decide_unpack in Hr. lia. }
    destruct (size_pos_elem_of paths Hsize) as [p0 Hp0].
    destruct (IH paths' (S now)) as (ys & t & Hloop & Hys).
    + intros p t [Hp _]%Hpaths'. by apply Hready.
    + intros p t [Hp _]%Hpaths'. by apply Hload.
    + destruct (Hfuel p0 Hp0). lia.
    + intros p [Hp Hlt]%Hpaths'. destruct (Hfuel p Hp). lia.
    + rewrite Hloop. eexists _, _. split; [done|]. simpl.
      rewrite Hys, <-fmap_app. apply fmap_Permutation.
      rewrite <-(filter_app_complement R (elements paths)).
      apply Permutation_app.
      * by rewrite Hperm.
      * apply NoDup_Permutation.
        -- apply NoDup_elements.
        -- apply NoDup_filter, NoDup_elements.
        -- intros p. rewrite elem_of_elements, Hpaths'.
           rewrite list_elem_of_filter, elem_of_elements. subst R. simpl.
           split.
           ++ intros [Hp Hlt]. split; [|done].
              rewrite Hready by done. intros Hr%bool_decide_unpack. lia.
           ++ intros [Hr Hp]. split; [done|].
              rewrite Hready in Hr by done.
              destruct (decide (arr p ≤ now)%nat) as [Hle|]; [|lia].
              exfalso. apply Hr. by apply bool_decide_pack.
  - eexists _, _. split; [done|].
    assert (paths = ∅) as ->.
    { apply leibniz_equiv, size_empty_iff. lia. }
    by rewrite elements_empty.
Qed.
End AsAvailable.

(** ** The iterations of a handle *)

Lemma written_at_exists (disk : nat → FS) (p : Path) (a : nat) (b : string)
    (t : nat) :
  written_at disk p a b → path_exists (disk t) p = bool_decide (a ≤ t)%nat.
Proof.
  intros Hw. specialize (Hw t). case_decide.
  - rewrite (path_exists_Some _ _ b) by done. by rewrite bool_decide_eq_true_2.
  - rewrite path_exists_None by done. by rewrite bool_decide_eq_false_2.
Qed.

Lemma written_at_load (disk : nat → FS) (p : Path) (a : nat) (b : string)
    (t : nat) :
  written_at disk p a b → (a ≤ t)%nat → load_object (disk t) p = Ok (loads b).
Proof.
  intros Hw Hle. specialize (Hw t). unfold load_object.
  rewrite Hw. by rewrite decide_True.
Qed.

(** Without timeout the wait ends when the blob is there: at once if it
    has arrived already, at its arrival time otherwise. *)
Lemma wait_written_at (fuel : nat) (disk : nat → FS) (p : Path) (a : nat)
    (b : string) (now : nat) :
  written_at disk p a b →
  (0 < fuel)%nat →
  (a < now + fuel)%nat →
  wait_for_path_to_exist fuel disk p None now = Some (Ok (), Nat.max now a).
Proof.
  intros Hw Hpos Hfuel. unfold wait_for_path_to_exist.
  apply (wait_loop_arrives _ _ _ _ _ b); [lia| | |done|lia].
  - intros t Ht. rewrite (Hw t). rewrite decide_False by lia. done.
  - rewrite (Hw (Nat.max now a)). by rewrite decide_True by lia.
Qed.

(** [iter] yields the objects in request order, one for each item. *)
Lemma iter_loop_complete (fuel : nat) (disk : nat → FS) (r : MapResult)
    (arr : Path → nat) (blob : Path → string) (todo : list string)
    (now : nat) :
  (∀ h, h ∈ todo →
     written_at disk (output_path (mapper r) h)
       (arr (output_path (mapper r) h)) (blob (output_path (mapper r) h))) →
  (0 < fuel)%nat →
  (∀ h, h ∈ todo → (arr (output_path (mapper r) h) < now + fuel)%nat) →
  ∃ t,
    iter_loop fuel disk r None todo now
    = Some ((λ h, loads (blob (output_path (mapper r) h))) <$> todo, None, t)
    ∧ (now ≤ t)%nat.
Proof.
  intros Hw Hpos. revert now.
  induction todo as [|h todo IH]; intros now Hfuel.
  - exists now. by split.
  - simpl.
    rewrite (wait_written_at _ _ _ _ _ _ (Hw h ltac:(by left)))
      by (done || apply Hfuel; by left).
    rewrite (written_at_load _ _ _ _ _ (Hw h ltac:(by left))) by lia.
    destruct (IH ltac:(intros h' Hh'; apply Hw; by right)
                (Nat.max now (arr (output_path (mapper r) h))))
      as (t & Hloop & Ht).
    + intros h' Hh'. specialize (Hfuel h' ltac:(by right)). lia.
    + rewrite Hloop. exists t. split; [done|lia].
Qed.

(** [iter_with_inputs] pairs every output with the object read from the
    input blob of the same fingerprint. *)
Lemma iter_with_inputs_loop_complete (fuel : nat) (disk : nat → FS)
    (r : MapResult) (arr : Path → nat) (blob : Path → string)
    (inb : string → string) (todo : list string) (now : nat) :
  (∀ h, h ∈ todo →
     written_at disk (output_path (mapper r) h)
       (arr (output_path (mapper r) h)) (blob (output_path (mapper r) h))) →
  (∀ h t, h ∈ todo → disk t !! input_path (mapper r) h = Some (inb h)) →
  (0 < fuel)%nat →
  (∀ h, h ∈ todo → (arr (output_path (mapper r) h) < now + fuel)%nat) →
  ∃ t,
    iter_with_inputs_loop fuel disk r None todo now
    = Some ((λ h, (loads (inb h), loads (blob (output_path (mapper r) h))))
              <$> todo, None, t)
    ∧ (now ≤ t)%nat.
Proof.
  intros Hw Hin Hpos. revert now.
  induction todo as [|h todo IH]; intros now Hfuel.
  - exists now. by split.
  - simpl.
    rewrite (wait_written_at _ _ _ _ _ _ (Hw h ltac:(by left)))
      by (done || apply Hfuel; by left).
    unfold load_object at 1. rewrite Hin by by left.
    rewrite (written_at_load _ _ _ _ _ (Hw h ltac:(by left))) by lia.
    destruct (IH ltac:(intros h' Hh'; apply Hw; by right)
                ltac:(intros h' t' Hh'; apply Hin; by right)
                (Nat.max now (arr (output_path (mapper r) h))))
      as (t & Hloop & Ht).
    + intros h' Hh'. specialize (Hfuel h' ltac:(by right)). lia.
    + rewrite Hloop. exists t. split; [done|lia].
Qed.

(** The elements of the set built from a list by an injective function:
    one for each distinct element of the list. *)
Lemma elements_list_to_set_fmap `{Countable K} (f : string → K)
    (hs : list string) :
  (∀ x y, f x = f y → x = y) →
  elements (list_to_set (C := gset K) (f <$> hs)) ≡ₚ f <$> remove_dups hs.
Proof.
  intros Hinj. apply NoDup_Permutation.
  - apply NoDup_elements.
  - apply NoDup_fmap_2_strong; [|apply NoDup_remove_dups].
    intros x y _ _. apply Hinj.
  - intros p. rewrite elem_of_elements, elem_of_list_to_set.
    rewrite !list_elem_of_fmap.
    split; intros (h & -> & Hh); exists h; split; try done;
      by apply elem_of_remove_dups.
Qed.

Lemma remove_dups_NoDup_Permutation (hs : list string) :
  NoDup hs → remove_dups hs ≡ₚ hs.
Proof.
  intros Hnd. apply NoDup_Permutation; [apply NoDup_remove_dups|done|].
  intros h. apply elem_of_remove_dups.
Qed.

(** C7 (as amended).  With every output blob of the handle written once,
    at any arrival times, [iter] yields one object for each requested item,
    in request order, and [iter_as_available] yields one object for each
    distinct fingerprint of the handle, each exactly once.  The two yield
    the same set of objects; they agree up to order when the fingerprints
    of the handle are pairwise distinct. *)
Theorem iter_as_available_complete (m : HTCMapper) (cid : option Z)
    (hs : list string) (disk : nat → FS) (arr : Path → nat)
    (blob : Path → string) (now fuel : nat) :
  (∀ h, h ∈ hs →
     written_at disk (output_path m h)
       (arr (output_path m h)) (blob (output_path m h))) →
  (1 < fuel)%nat →
  (∀ h, h ∈ hs → (arr (output_path m h) + 1 < now + fuel)%nat) →
  ∃ xs t ys t',
    iter fuel disk (MapResult_init m cid hs) None now = Some (xs, None, t)
    ∧ iter_as_available fuel disk (MapResult_init m cid hs) now
      = Some (ys, None, t')
    ∧ xs = (λ h, loads (blob (output_path m h))) <$> hs
    ∧ ys ≡ₚ (λ h, loads (blob (output_path m h))) <$> remove_dups hs
    ∧ (∀ o, o ∈ ys ↔ o ∈ xs)
    ∧ (NoDup hs → ys ≡ₚ xs).
Proof.
  intros Hw Hfuel1 Hfuel.
  destruct (iter_loop_complete fuel disk (MapResult_init m cid hs) arr blob
              hs now) as (t & Hiter & _); [done|lia| |].
  { intros h Hh. specialize (Hfuel h Hh). simpl. lia. }
  destruct (as_available_loop_complete path_exists load_object
              (λ p, loads (blob p)) disk arr fuel
              (list_to_set (output_path m <$> hs)) now)
    as (ys & t' & Hloop & Hys).
  { intros p t0 (h & -> & Hh)%elem_of_list_to_set%list_elem_of_fmap_1.
    by apply (written_at_exists _ _ _ (blob (output_path m h))), Hw. }
  { intros p t0 (h & -> & Hh)%elem_of_list_to_set%list_elem_of_fmap_1 Hle.
    by apply (written_at_load _ _ (arr (output_path m h))); [apply Hw|]. }
  { lia. }
  { intros p (h & -> & Hh)%elem_of_list_to_set%list_elem_of_fmap_1.
    split; [done|]. by apply Hfuel. }
  assert (ys ≡ₚ (λ h, loads (blob (output_path m h))) <$> remove_dups hs)
    as Hys'.
  { rewrite Hys, elements_list_to_set_fmap by apply output_path_inj.
    by rewrite <-list_fmap_compose. }
  exists ((λ h, loads (blob (output_path m h))) <$> hs), t, ys, t'.
  split; [done|]. split; [done|]. split; [done|]. split; [done|]. split.
  - intros o. rewrite Hys', !list_elem_of_fmap.
    split; intros (h & -> & Hh); exists h; split; try done;
      by apply elem_of_remove_dups.
  - intros Hnd. by rewrite Hys', remove_dups_NoDup_Permutation.
Qed.

(** C9.  [iter_as_available_with_inputs] builds for every fingerprint the
    pair made of the output path twice; so both members of every pair it
    yields are read from the output blob: the input member is the object of
    [outputs/<hash>.out], whereas [iter_with_inputs] reads it from
    [inputs/<hash>.in]. *)
Theorem iter_as_available_with_inputs_reads_output_twice (m : HTCMapper)
    (cid : option Z) (hs : list string) (disk : nat → FS) (arr : Path → nat)
    (blob : Path → string) (inb : string → string) (now fuel : nat) :
  (∀ h, h ∈ hs →
     written_at disk (output_path m h)
       (arr (output_path m h)) (blob (output_path m h))) →
  (∀ h t, h ∈ hs → disk t !! input_path m h = Some (inb h)) →
  (1 < fuel)%nat →
  (∀ h, h ∈ hs → (arr (output_path m h) + 1 < now + fuel)%nat) →
  input_output_paths (MapResult_init m cid hs)
  = list_to_set ((λ h, (output_path m h, output_path m h)) <$> hs)
  ∧ (∃ ys t,
       iter_as_available_with_inputs fuel disk (MapResult_init m cid hs) now
       = Some (ys, None, t)
       ∧ ys ≡ₚ (λ h, (loads (blob (output_path m h)),
                      loads (blob (output_path m h)))) <$> remove_dups hs
       ∧ ∀ inp out, (inp, out) ∈ ys →
           ∃ h, h ∈ hs ∧ inp = loads (blob (output_path m h))
                ∧ out = loads (blob (output_path m h)))
  ∧ (∃ t,
       iter_with_inputs fuel disk (MapResult_init m cid hs) None now
       = Some ((λ h, (loads (inb h), loads (blob (output_path m h)))) <$> hs,
               None, t)).
Proof.
  intros Hw Hin Hfuel1 Hfuel. split; [done|]. split.
  - destruct (as_available_loop_complete
                (λ fs (pp : Path * Path), path_exists fs pp.2) load_pair
                (λ pp, (loads (blob pp.1), loads (blob pp.2))) disk
                (λ pp, arr pp.2) fuel
                (input_output_paths (MapResult_init m cid hs)) now)
      as (ys & t & Hloop & Hys).
    { intros p t0 (h & -> & Hh)%elem_of_list_to_set%list_elem_of_fmap_1.
      by apply (written_at_exists _ _ _ (blob (output_path m h))), Hw. }
    { intros p t0 (h & -> & Hh)%elem_of_list_to_set%list_elem_of_fmap_1 Hle.
      unfold load_pair.
      by rewrite (written_at_load _ _ (arr (output_path m h))
                    (blob (output_path m h))) by (by apply Hw || done). }
    { lia. }
    { intros p (h & -> & Hh)%elem_of_list_to_set%list_elem_of_fmap_1.
      split; [done|]. by apply Hfuel. }
    assert (ys ≡ₚ (λ h, (loads (blob (output_path m h)),
                         loads (blob (output_path m h))))
                    <$> remove_dups hs) as Hys'.
    { rewrite Hys. unfold input_output_paths. simpl.
      rewrite elements_list_to_set_fmap.
      - by rewrite <-list_fmap_compose.
      - intros x y [= Heq]. by apply output_path_inj in Heq. }
    exists ys, t. split; [done|]. split; [done|].
    intros inp out. rewrite Hys'.
    intros (h & [= -> ->] & Hh)%list_elem_of_fmap_1.
    rewrite elem_of_remove_dups in Hh. by exists h.
  - destruct (iter_with_inputs_loop_complete fuel disk
                (MapResult_init m cid hs) arr blob inb hs now)
      as (t & Hiter & _); [done|done|lia| |by exists t].
    intros h Hh. specialize (Hfuel h Hh). simpl. lia.
Qed.

(** * More of the module *)

(** ** The size and the elements of the keyword product *)

Lemma length_nested_product (d : dict V) (kwargs : dict (list V)) :
  length (nested_product d kwargs)
  = foldr (λ kv n, length kv.2 * n)%nat 1%nat kwargs.
Proof.
  revert d. induction kwargs as [|[key values] kwargs IH]; intros d; [done|].
  simpl. induction values as [|v values IHv]; [done|].
  rewrite bind_cons, length_app, IH, IHv. simpl. lia.
Qed.

(** X1.  [productmap] plans as many work items as the product of the
    lengths of the keyword value lists (one for no keyword at all). *)
Theorem productmap_count (self : HTCMapper) (args : list V)
    (kwargs : dict (list V)) (fs : FS) (schedd : Schedd) :
  length (productmap_items args kwargs)
  = foldr (λ kv n, length kv.2 * n)%nat 1%nat kwargs
  ∧ length (hashes (productmap self args kwargs fs schedd).2)
    = foldr (λ kv n, length kv.2 * n)%nat 1%nat kwargs.
Proof.
  assert (length (productmap_items args kwargs)
          = foldr (λ kv n, length kv.2 * n)%nat 1%nat kwargs) as Hlen.
  { unfold productmap_items.
    by rewrite length_fmap, product_dicts_nested, length_nested_product. }
  split; [done|]. unfold productmap.
  by rewrite _map_hashes, length_fmap.
Qed.

Lemma dict_set_fresh (d : dict V) (key : string) (v : V) :
  key ∉ d.*1 → dict_set d key v = d ++ [(key, v)].
Proof.
  induction d as [|[k w] d IH]; [done|]. simpl.
  intros [Hne Hd]%not_elem_of_cons.
  destruct (String.eqb_spec k key) as [->|_]; [done|]. by rewrite IH.
Qed.

Lemma elem_of_nested_product (kwargs : dict (list V)) (acc d : dict V) :
  NoDup (kwargs.*1) →
  (∀ key, key ∈ kwargs.*1 → key ∉ acc.*1) →
  d ∈ nested_product acc kwargs
  ↔ ∃ combo,
      d = acc ++ combo
      ∧ Forall2 (λ kv kvs, kv.1 = kvs.1 ∧ kv.2 ∈ kvs.2) combo kwargs.
Proof.
  revert acc. induction kwargs as [|[key values] kwargs IH];
    intros acc Hnd Hfresh.
  - simpl. rewrite list_elem_of_singleton. split.
    + intros ->. exists []. by rewrite app_nil_r.
    + intros (combo & -> & ->%Forall2_nil_inv_r). by rewrite app_nil_r.
  - simpl in *. apply NoDup_cons in Hnd as [Hkey Hnd].
    rewrite list_elem_of_bind. split.
    + intros (v & Hd & Hv).
      rewrite dict_set_fresh in Hd by (apply Hfresh; by left).
      apply IH in Hd as (combo & -> & Hcombo); [|done|].
      * exists ((key, v) :: combo). split; [by rewrite <-app_assoc|].
        by constructor.
      * intros k Hk. rewrite fmap_app. apply not_elem_of_app. split.
        -- apply Hfresh. by right.
        -- simpl. rewrite list_elem_of_singleton. by intros ->.
    + intros (combo & -> & Hcombo).
      apply Forall2_cons_inv_r in Hcombo
        as ([k v] & combo' & [Hk Hv] & Hcombo' & ->).
      simpl in *. subst k. exists v. split; [|done].
      rewrite dict_set_fresh by (apply Hfresh; by left).
      apply IH; [done| |].
      * intros k Hk. rewrite fmap_app. apply not_elem_of_app. split.
        -- apply Hfresh. by right.
        -- simpl. rewrite list_elem_of_singleton. by intros ->.
      * exists combo'. split; [|done]. by rewrite <-app_assoc.
Qed.

(** X2.  With the keys pairwise distinct (as the keys of keyword arguments
    are), the keyword mappings of [productmap] are exactly the combinations
    of one value for each key: every mapping holds the keys in their order,
    each with a value of its list, and every such mapping is planned. *)
Theorem productmap_combinations (args : list V) (kwargs : dict (list V))
    (d : dict V) :
  NoDup (kwargs.*1) →
  (args, d) ∈ productmap_items args kwargs
  ↔ Forall2 (λ kv kvs, kv.1 = kvs.1 ∧ kv.2 ∈ kvs.2) d kwargs.
Proof.
  intros Hnd. unfold productmap_items.
  rewrite product_dicts_nested, list_elem_of_fmap. split.
  - intros (d' & [= ->] & Hd).
    apply elem_of_nested_product in Hd as (combo & -> & Hcombo); try done.
    intros key _. simpl. apply not_elem_of_nil.
  - intros Hd. exists d. split; [done|].
    apply elem_of_nested_product; [done| |by exists d].
    intros key _. simpl. apply not_elem_of_nil.
Qed.

Lemma product_size_zero (kwargs : dict (list V)) (key : string) :
  (key, []) ∈ kwargs →
  foldr (λ kv n, length kv.2 * n)%nat 1%nat kwargs = 0%nat.
Proof.
  induction kwargs as [|[k vs] kwargs IH]; [by intros ?%elem_of_nil|].
  intros [[= <- <-]|Hin]%elem_of_cons; simpl; [done|].
  rewrite IH by done. lia.
Qed.

(** X3.  When one of the keyword value lists is empty, [productmap] plans
    no work item at all: the store and the scheduler are left as they are
    and the handle is empty, without cluster id. *)
Theorem productmap_empty_values (self : HTCMapper) (args : list V)
    (kwargs : dict (list V)) (key : string) (fs : FS) (schedd : Schedd) :
  (key, []) ∈ kwargs →
  productmap self args kwargs fs schedd
  = (fs, schedd, MapResult_init self None []).
Proof.
  intros Hkey. unfold productmap.
  assert (productmap_items args kwargs = []) as ->; [|done].
  apply nil_length_inv. unfold productmap_items.
  rewrite length_fmap, product_dicts_nested, length_nested_product.
  by eapply product_size_zero.
Qed.


(** ** [map], [starmap] and the job builder *)

(** Two iterables of the same length are zipped without any padding. *)
Lemma zip_args_and_kwargs_same_length (args : list (list V))
    (kwargs : list (dict V)) (fuel : nat) :
  length args = length kwargs →
  (length args < fuel)%nat →
  zip_args_and_kwargs fuel args kwargs = Some (zip args kwargs).
Proof.
  intros Hlen Hfuel. rewrite zip_args_and_kwargs_closed by lia.
  rewrite Hlen, Nat.sub_diag. simpl. by rewrite !app_nil_r.
Qed.

(** X4.  [map] is the star-map of the one-element tuples of its arguments
    against as many copies of the shared keyword mapping: one work item for
    each argument, in order, all with the same keywords; without argument
    nothing is submitted. *)
Theorem map_is_starmap (self : HTCMapper) (xs : list V) (kwargs : dict V)
    (fs : FS) (schedd : Schedd) (fuel : nat) :
  (length xs < fuel)%nat →
  starmap fuel self ((λ x, [x]) <$> xs) (replicate (length xs) kwargs)
    fs schedd
  = Some (HTCMapper_map self xs kwargs fs schedd)
  ∧ hashes (HTCMapper_map self xs kwargs fs schedd).2
    = (λ x, fingerprint ([x], kwargs)) <$> xs
  ∧ HTCMapper_map self [] kwargs fs schedd
    = (fs, schedd, MapResult_init self None []).
Proof.
  intros Hfuel. split; [|split; [|done]].
  - unfold starmap, HTCMapper_map.
    rewrite zip_args_and_kwargs_same_length
      by (rewrite length_fmap, ?length_replicate; done).
    simpl. rewrite zip_replicate_r by by rewrite length_fmap.
    by rewrite <-list_fmap_compose.
  - unfold HTCMapper_map. by rewrite _map_hashes, <-list_fmap_compose.
Qed.

(** The builder after a number of calls: the arguments noted in order,
    still no result. *)
Lemma JobBuilder_calls (job : JobBuilder) (calls : list (list V * dict V)) :
  foldl (λ job c, JobBuilder_call job c.1 c.2) job calls
  = {| builder_mapper := builder_mapper job;
       builder_args := builder_args job ++ calls.*1;
       builder_kwargs := builder_kwargs job ++ calls.*2;
       _result := _result job |}.
Proof.
  revert job. induction calls as [|c calls IH]; intros job.
  - simpl. rewrite !app_nil_r. by destruct job.
  - simpl. rewrite IH. simpl. by rewrite <-!app_assoc.
Qed.

(** X5.  A job builder notes a call for each use and runs nothing before
    the block is left: until then it counts the calls and its [result]
    fails with [NoResultYet].  Leaving the block star-maps the calls noted:
    positional and keyword arguments were noted together, so nothing is
    padded, and the result is what [_map] plans for the calls in order. *)
Theorem with_build_job_plans_the_calls (fuel : nat) (mapper : HTCMapper)
    (calls : list (list V * dict V)) (fs : FS) (schedd : Schedd) :
  (length calls < fuel)%nat →
  let noted :=
    foldl (λ job c, JobBuilder_call job c.1 c.2) (build_job mapper) calls in
  JobBuilder_result noted = Raise NoResultYet
  ∧ JobBuilder_len noted = length calls
  ∧ ∃ fs' schedd' job r,
      with_build_job fuel mapper calls fs schedd = Some (fs', schedd', job)
      ∧ _map mapper calls fs schedd = (fs', schedd', r)
      ∧ JobBuilder_result job = Ok r
      ∧ JobBuilder_len job = length calls
      ∧ hashes r = fingerprint <$> calls.
Proof.
  intros Hfuel noted. subst noted. unfold with_build_job.
  rewrite JobBuilder_calls. simpl.
  split; [done|].
  split; [unfold JobBuilder_len; simpl; by rewrite length_fmap|].
  destruct (_map_returns mapper calls fs schedd)
    as (fs' & schedd' & r & Hmap & Hhs).
  unfold JobBuilder_exit, starmap. simpl.
  rewrite zip_args_and_kwargs_same_length
    by (rewrite !length_fmap; done).
  rewrite zip_fst_snd. simpl. rewrite Hmap. simpl.
  eexists _, _, _, r. split; [done|]. split; [done|]. split; [done|].
  split; [unfold JobBuilder_len; simpl; by rewrite length_fmap|done].
Qed.


(** ** What the submission planner writes and what it leaves alone *)

Lemma path_div_not_parent (p : Path) (s : string) : p </> s ≠ p.
Proof.
  unfold path_div. intros Heq. apply (f_equal length) in Heq.
  rewrite length_app in Heq. simpl in Heq. lia.
Qed.

Lemma fn_path_not_input (self : HTCMapper) (h : string) :
  fn_path self ≠ input_path self h.
Proof.
  unfold fn_path, input_path, inputs_dir.
  intros [Heq _]%path_div_inj. symmetry in Heq.
  by apply path_div_not_parent in Heq.
Qed.

Lemma fn_path_not_manifest (self : HTCMapper) (clusterid : Z) :
  fn_path self ≠ manifest_path self clusterid.
Proof.
  unfold fn_path, manifest_path, hashes_dir.
  intros [Heq _]%path_div_inj. symmetry in Heq.
  by apply path_div_not_parent in Heq.
Qed.

Lemma output_path_not_manifest (self : HTCMapper) (clusterid : Z)
    (h : string) :
  output_path self h ≠ manifest_path self clusterid.
Proof.
  unfold manifest_path, output_path, hashes_dir, outputs_dir.
  intros [[_ Heq]%path_div_inj _]%path_div_inj. discriminate.
Qed.

Lemma manifest_path_inj (self : HTCMapper) (c1 c2 : Z) :
  manifest_path self c1 = manifest_path self c2 → c1 = c2.
Proof.
  unfold manifest_path. intros [_ Heq]%path_div_inj.
  apply append_inj_r in Heq. by apply (inj pretty) in Heq.
Qed.

(** The store after [_map], away from the paths it writes. *)
Lemma _map_frame (self : HTCMapper) (items : list (list V * dict V))
    (fs : FS) (schedd : Schedd) (p : Path) :
  (∀ h, p ≠ input_path self h) →
  p ≠ manifest_path self (next_clusterid schedd) →
  (_map self items fs schedd).1.1 !! p = fs !! p.
Proof.
  intros Hin Hmanifest. rewrite _map_unfold. simpl.
  assert ((_map_loop self items fs [] []).1.1 !! p = fs !! p) as Hloop.
  { apply _map_loop_store. intros item _ _ Heq. by apply (Hin (fingerprint item)). }
  destruct (filter _ _); simpl; [done|].
  by rewrite lookup_insert_ne.
Qed.

(** X6.  [_map] writes input blobs and one manifest, and nothing else:
    every output blob and the function blob of the map are as before, and
    so is every path that is neither an input path of the map nor the
    manifest of the cluster id that the scheduler hands out. *)
Theorem map_leaves_outputs_alone (self : HTCMapper)
    (items : list (list V * dict V)) (fs : FS) (schedd : Schedd) :
  (∀ h, (_map self items fs schedd).1.1 !! output_path self h
        = fs !! output_path self h)
  ∧ (_map self items fs schedd).1.1 !! fn_path self = fs !! fn_path self
  ∧ (∀ p, (∀ h, p ≠ input_path self h) →
          p ≠ manifest_path self (next_clusterid schedd) →
          (_map self items fs schedd).1.1 !! p = fs !! p).
Proof.
  split; [|split].
  - intros h. apply _map_frame.
    + intros h' Heq. symmetry in Heq. by apply input_path_not_output in Heq.
    + apply output_path_not_manifest.
  - apply _map_frame; [apply fn_path_not_input|apply fn_path_not_manifest].
  - intros p. apply _map_frame.
Qed.

(** Writing input blobs one after the other keeps those that are there and
    keeps every input blob under the digest of its bytes. *)
Lemma write_inputs_content_addressed (self : HTCMapper)
    (items : list (list V * dict V)) (fs : FS) :
  (∀ h b, fs !! input_path self h = Some b → hash_bytes b = h) →
  let fs' :=
    foldl (λ fs item, <[input_path self (fingerprint item) := to_bytes item]> fs)
      fs items in
  (∀ h b, fs' !! input_path self h = Some b → hash_bytes b = h)
  ∧ (∀ p, is_Some (fs !! p) → is_Some (fs' !! p))
  ∧ (∀ item, item ∈ items →
       is_Some (fs' !! input_path self (fingerprint item))).
Proof.
  revert fs. induction items as [|item items IH]; intros fs Hinv.
  - simpl. split; [done|]. split; [done|]. by intros item ?%elem_of_nil.
  - simpl.
    destruct (IH (<[input_path self (fingerprint item) := to_bytes item]> fs))
      as (Hinv' & Hkeep & Hnew).
    { intros h b. destruct (decide (fingerprint item = h)) as [<-|Hne].
      - rewrite lookup_insert_eq. by intros [= <-].
      - rewrite lookup_insert_ne; [apply Hinv|].
        intros Heq. by apply input_path_inj in Heq. }
    split; [done|]. split.
    + intros p Hp. apply Hkeep. rewrite lookup_insert_is_Some.
      destruct (decide (input_path self (fingerprint item) = p)); auto.
    + intros item' [->|Hin]%elem_of_cons; [|by apply Hnew].
      apply Hkeep. rewrite lookup_insert_eq. by eexists.
Qed.

(** X7.  The input blobs stay content-addressed: if every input blob of
    the map is stored under the digest of its bytes before [_map], so it is
    afterwards; and after [_map] the input blob of every item without
    output is in the store, under the fingerprint of the item. *)
Theorem map_keeps_inputs_content_addressed (self : HTCMapper)
    (items : list (list V * dict V)) (fs : FS) (schedd : Schedd) :
  (∀ h b, fs !! input_path self h = Some b → hash_bytes b = h) →
  (∀ h b, (_map self items fs schedd).1.1 !! input_path self h = Some b →
          hash_bytes b = h)
  ∧ (∀ item, item ∈ items →
       ¬ path_exists fs (output_path self (fingerprint item)) →
       ∃ b, (_map self items fs schedd).1.1
              !! input_path self (fingerprint item) = Some b
            ∧ hash_bytes b = fingerprint item).
Proof.
  intros Hinv.
  destruct (write_inputs_content_addressed self
              (filter (λ item,
                 ¬ path_exists fs (output_path self (fingerprint item))) items)
              fs Hinv) as (Hinv' & _ & Hnew).
  assert (∀ h, (_map self items fs schedd).1.1 !! input_path self h
               = foldl (λ fs item,
                   <[input_path self (fingerprint item) := to_bytes item]> fs)
                   fs (filter (λ item,
                     ¬ path_exists fs (output_path self (fingerprint item)))
                     items) !! input_path self h) as Heq.
  { intros h. rewrite _map_unfold. simpl. rewrite _map_loop_writes.
    destruct (filter _ (fingerprint <$> items)); simpl; [done|].
    rewrite lookup_insert_ne; [done|apply manifest_path_not_input]. }
  split.
  - intros h b. rewrite Heq. apply Hinv'.
  - intros item Hin Hunsat. rewrite Heq.
    destruct (Hnew item) as [b Hb].
    { apply list_elem_of_filter. by split. }
    exists b. split; [done|]. by apply Hinv' in Hb.
Qed.

Lemma filter_Forall_id {A : Type} (P : A → Prop) `{!∀ x, Decision (P x)}
    (l : list A) :
  Forall P l → filter P l = l.
Proof.
  induction 1 as [|x l Hx Hl IH]; [done|].
  by rewrite filter_cons_True, IH.
Qed.

(** X8.  On a store without output for any of its items (as for the first
    invocation of a map), [_map] hands every fingerprint to the scheduler
    in one batch, in request order and with the repetitions of the request:
    a call that is requested twice is submitted twice. *)
Theorem first_invocation_submits_every_item (self : HTCMapper)
    (items : list (list V * dict V)) (fs : FS) (schedd : Schedd) :
  items ≠ [] →
  Forall (λ item, ¬ path_exists fs (output_path self (fingerprint item)))
    items →
  ∃ fs',
    _map self items fs schedd
    = (fs',
       {| next_clusterid := next_clusterid schedd + 1;
          queued := queued schedd
                    ++ [(next_clusterid schedd, name self,
                         fingerprint <$> items)] |},
       MapResult_init self (Some (next_clusterid schedd))
         (fingerprint <$> items)).
Proof.
  intros Hne Hall. rewrite _map_unfold. simpl.
  rewrite filter_Forall_id.
  - destruct items as [|item items]; [done|]. simpl. by eexists.
  - apply Forall_forall. intros h (item & -> & Hin)%list_elem_of_fmap_1.
    rewrite Forall_forall in Hall. by apply Hall.
Qed.

(** X9.  The manifests accumulate: a handle that [_map] returned with a
    cluster id is still rebuilt by [reconstruct] after a later invocation
    of the map, whatever happened to the rest of the store in between, as
    the scheduler hands out a new cluster id each time. *)
Theorem earlier_handle_stays_reconstructible (self : HTCMapper)
    (items1 items2 : list (list V * dict V)) (fs : FS) (schedd : Schedd) :
  Forall (λ item, is_hex (fingerprint item)) items1 →
  Exists (λ item, ¬ path_exists fs (output_path self (fingerprint item)))
    items1 →
  ∃ fs1 schedd1 r1 cid1,
    _map self items1 fs schedd = (fs1, schedd1, r1)
    ∧ clusterid r1 = Some cid1
    ∧ ∀ fs1',
        fs1' !! manifest_path self cid1 = fs1 !! manifest_path self cid1 →
        reconstruct self cid1 (_map self items2 fs1' schedd1).1.1 = Ok r1.
Proof.
  intros Hhex Hunsat. rewrite _map_unfold. simpl.
  destruct (filter _ _) as [|h new] eqn:Hnew.
  { exfalso. apply Exists_exists in Hunsat as (item & Hin & Hitem).
    assert (fingerprint item ∈ @nil string) as Hnil; [|by inversion Hnil].
    rewrite <-Hnew. apply list_elem_of_filter. split; [done|].
    by apply list_elem_of_fmap_2. }
  eexists _, _, _, (next_clusterid schedd). split; [done|]. split; [done|].
  intros fs1' Hkept. unfold reconstruct, from_clusterid.
  rewrite _map_frame.
  - rewrite Hkept, lookup_insert_eq. rewrite manifest_lines_join; [done|].
    apply Forall_forall. intros h' (item & -> & Hin)%list_elem_of_fmap_1.
    rewrite Forall_forall in Hhex. by apply Hhex.
  - intros h'. apply manifest_path_not_input.
  - simpl. intros Heq%manifest_path_inj. lia.
Qed.

(** ** The function blob *)

(** X10.  The function blob of a map is written once: building a mapper
    under a name whose blob exists leaves the store as it is, whatever the
    function; so after two mappers of the same name the blob is still the
    first function. *)
Theorem function_blob_written_once (func1 func2 : callable) (name0 : string)
    (sd1 sd2 : option (dict string)) (fs : FS) :
  (HTCMapper_init func2 name0 sd2 (HTCMapper_init func1 name0 sd1 fs).1).1
  = (HTCMapper_init func1 name0 sd1 fs).1
  ∧ (∀ (b : string),
       fs !! (HTCMAP_DIR </> name0 </> "fn.pkl") = Some b →
       (HTCMapper_init func1 name0 sd1 fs).1 = fs)
  ∧ (fs !! (HTCMAP_DIR </> name0 </> "fn.pkl") = None →
     (HTCMapper_init func2 name0 sd2 (HTCMapper_init func1 name0 sd1 fs).1).1
       !! (HTCMAP_DIR </> name0 </> "fn.pkl")
     = Some (dumps_func func1)).
Proof.
  unfold HTCMapper_init, fn_path, map_dir. simpl.
  destruct (path_exists fs (HTCMAP_DIR </> name0 </> "fn.pkl")) eqn:Hfs; simpl.
  - rewrite Hfs. simpl. split; [done|]. split; [done|].
    intros Hnone. by rewrite (path_exists_None _ _ Hnone) in Hfs.
  - rewrite (path_exists_Some _ _ (dumps_func func1))
      by by rewrite lookup_insert_eq.
    simpl. split; [done|]. split.
    + intros b Hb. by rewrite (path_exists_Some _ _ _ Hb) in Hfs.
    + intros _. by rewrite lookup_insert_eq.
Qed.


(** ** Calling a mapper, and the functions of the module *)

(** X11.  A decorated function can still be called as normal: calling the
    mapper that [htcmap] makes of a plain function, or the mapper made by
    decorating that mapper again, gives what the function gives. *)
Theorem decorated_function_is_called_as_normal (f : F)
    (sd sd' : option (dict string)) (fs : FS) (args : list V)
    (kwargs : dict V) :
  ∃ fs1 m1 fs2 m2,
    htcmap (NameCallable (PlainFunc f)) sd fs = Ok (Mapper fs1 m1)
    ∧ htcmap (NameCallable (MapperObj m1)) sd' fs1 = Ok (Mapper fs2 m2)
    ∧ HTCMapper_call m1 args kwargs = call_func f args kwargs
    ∧ HTCMapper_call m2 args kwargs = call_func f args kwargs.
Proof.
  destruct (wrapper_mapper (NameCallable (PlainFunc f)) sd (PlainFunc f) f fs)
    as (fs1 & m1 & Hw1 & Hf1 & _); [by left|].
  destruct (wrapper_mapper (NameCallable (MapperObj m1)) sd' (MapperObj m1)
              f fs1) as (fs2 & m2 & Hw2 & Hf2 & _); [right; by exists m1|].
  exists fs1, m1, fs2, m2. unfold htcmap. rewrite Hw1, Hw2.
  split; [done|]. split; [done|].
  destruct m1 as [c1 n1 d1], m2 as [c2 n2 d2]. simpl in *. by subst.
Qed.

(** X12.  The function [map] of the module works in the map that is named
    after the plain function, with no submit descriptors: given a mapper
    that was built under another name, it does not use that name (nor the
    mapper's descriptors) but the name of the function behind it.  Given
    something that is not callable, it fails with [AttributeError]. *)
Theorem module_map_uses_function_name (m : HTCMapper) (f : F) (xs : list V)
    (kwargs : dict V) (fs : FS) (schedd : Schedd) :
  func m = PlainFunc f →
  (∃ fs' m',
     module_map (NameCallable (MapperObj m)) xs kwargs fs schedd
     = Ok (HTCMapper_map m' xs kwargs fs' schedd)
     ∧ module_map (NameCallable (PlainFunc f)) xs kwargs fs schedd
       = Ok (HTCMapper_map m' xs kwargs fs' schedd)
     ∧ m' = Build_HTCMapper (PlainFunc f) (func_name f) [])
  ∧ (∀ s, module_map (NameStr s) xs kwargs fs schedd = Raise AttributeError)
  ∧ module_map NameNone xs kwargs fs schedd = Raise AttributeError.
Proof.
  intros Hm. split; [|by split].
  unfold module_map, htcmap, wrapper. rewrite Hm. simpl.
  unfold HTCMapper_init. simpl.
  destruct (path_exists fs _); by eexists _, _.
Qed.


(** ** More on the result handle *)

Lemma tuple_index_negative {A : Type} (t : list A) (i : Z) (x : A) :
  i < 0 → tuple_index t i = Ok x →
  tuple_index t (i + Z.of_nat (length t)) = Ok x.
Proof.
  unfold tuple_index. intros Hneg.
  destruct (Z.ltb_spec i 0); [|lia].
  destruct (Z.ltb_spec (i + Z.of_nat (length t)) 0); simpl; [done|].
  by rewrite (proj2 (Z.ltb_ge (i + Z.of_nat (length t)) 0)) by lia.
Qed.

(** X13.  An item may be named by its position or by its fingerprint:
    [get] by an index is [get] by the fingerprint at that index, and a
    negative index is the index counted from the end. *)
Theorem get_by_index_is_get_by_hash (m : HTCMapper) (cid : option Z)
    (hs : list string) (i : Z) (h : string) (fuel : nat) (disk : nat → FS)
    (timeout : option Z) (now : nat) :
  tuple_index hs i = Ok h →
  get fuel disk (MapResult_init m cid hs) (Index i) timeout now
  = get fuel disk (MapResult_init m cid hs) (Hash h) timeout now
  ∧ (i < 0 →
     get fuel disk (MapResult_init m cid hs) (Index i) timeout now
     = get fuel disk (MapResult_init m cid hs)
         (Index (i + Z.of_nat (length hs))) timeout now).
Proof.
  intros Hi. split.
  - unfold get. simpl. by rewrite Hi.
  - intros Hneg. unfold get. simpl.
    by rewrite (tuple_index_negative hs i h Hneg Hi), Hi.
Qed.

Lemma gen_cons_app {A : Type} (x : A) (xs : list A) (g : option (gen A)) :
  gen_cons x <$> (gen_app xs <$> g) = gen_app (x :: xs) <$> g.
Proof. by destruct g as [[[ys e] t]|]. Qed.

Lemma gen_app_nil {A : Type} (g : option (gen A)) : gen_app [] <$> g = g.
Proof. by destruct g as [[[ys e] t]|]. Qed.

Lemma gen_app_stop {A : Type} (xs : list A) (e : option exn) (t : nat) :
  gen_app xs <$> Some ([], e, t) = Some (xs, e, t).
Proof. unfold gen_app. simpl. by rewrite app_nil_r. Qed.

Lemma wait_for_path_present (fuel : nat) (disk : nat → FS) (p : Path)
    (b : string) (timeout : option Z) (now : nat) :
  disk now !! p = Some b →
  wait_for_path_to_exist (S fuel) disk p timeout now = Some (Ok (), now).
Proof.
  intros Hp. unfold wait_for_path_to_exist. simpl.
  by rewrite (path_exists_Some _ _ b).
Qed.

(** [iter] over items whose outputs are in the store does not wait. *)
Lemma iter_loop_present (fuel : nat) (disk : nat → FS) (r : MapResult)
    (blob : string → string) (timeout : option Z) (pre rest : list string)
    (now : nat) :
  (∀ h, h ∈ pre → disk now !! output_path (mapper r) h = Some (blob h)) →
  iter_loop (S fuel) disk r timeout (pre ++ rest) now
  = gen_app ((λ h, loads (blob h)) <$> pre)
      <$> iter_loop (S fuel) disk r timeout rest now.
Proof.
  induction pre as [|h pre IH]; intros Hpre.
  - simpl app. simpl fmap at 2. by rewrite gen_app_nil.
  - change ((h :: pre) ++ rest) with (h :: (pre ++ rest)).
    cbn [iter_loop].
    rewrite (wait_for_path_present _ _ _ (blob h)) by (apply Hpre; by left).
    unfold load_object at 1. rewrite Hpre by by left.
    rewrite IH by (intros h' Hh'; apply Hpre; by right).
    by rewrite gen_cons_app.
Qed.

(** X14.  [iter] with a timeout yields the outputs that are there, in
    request order, up to the first item whose output does not come in
    time, and stops there with the [TimeoutError] of the wait: the timeout
    is granted anew for each item, and a zero timeout gives [TimeoutError]
    as well, not the [OutputNotFound] of [get]. *)
Theorem iter_stops_at_first_missing_output (m : HTCMapper) (cid : option Z)
    (pre : list string) (h : string) (post : list string) (disk : nat → FS)
    (blob : string → string) (z : Z) (now fuel : nat) :
  (∀ h', h' ∈ pre → disk now !! output_path m h' = Some (blob h')) →
  (∀ t, disk t !! output_path m h = None) →
  (Z.to_nat z < fuel)%nat →
  iter fuel disk (MapResult_init m cid (pre ++ h :: post)) (Some z) now
  = Some ((λ h', loads (blob h')) <$> pre, Some TimeoutError,
          (now + Z.to_nat z)%nat).
Proof.
  intros Hpre Hnever Hfuel. unfold iter.
  destruct fuel as [|fuel]; [lia|].
  change (hashes (MapResult_init m cid (pre ++ h :: post)))
    with (pre ++ h :: post).
  rewrite (iter_loop_present _ _ _ blob) by done.
  cbn [iter_loop]. unfold wait_for_path_to_exist.
  rewrite wait_loop_never by (done || simpl; lia).
  by rewrite gen_app_stop.
Qed.

Lemma iter_with_inputs_loop_present (fuel : nat) (disk : nat → FS)
    (r : MapResult) (inb outb : string → string) (timeout : option Z)
    (pre rest : list string) (now : nat) :
  (∀ h, h ∈ pre →
     disk now !! output_path (mapper r) h = Some (outb h)
     ∧ disk now !! input_path (mapper r) h = Some (inb h)) →
  iter_with_inputs_loop (S fuel) disk r timeout (pre ++ rest) now
  = gen_app ((λ h, (loads (inb h), loads (outb h))) <$> pre)
      <$> iter_with_inputs_loop (S fuel) disk r timeout rest now.
Proof.
  induction pre as [|h pre IH]; intros Hpre.
  - simpl app. simpl fmap at 2. by rewrite gen_app_nil.
  - change ((h :: pre) ++ rest) with (h :: (pre ++ rest)).
    cbn [iter_with_inputs_loop].
    destruct (Hpre h ltac:(by left)) as [Hout Hin].
    rewrite (wait_for_path_present _ _ _ (outb h)) by done.
    unfold load_object at 1 2. rewrite Hin, Hout.
    rewrite IH by (intros h' Hh'; apply Hpre; by right).
    by rewrite gen_cons_app.
Qed.

(** X15.  [iter_with_inputs] needs the input blob beside the output blob:
    at the first item whose output is in the store but whose input blob is
    not (an item that was satisfied when the map was planned never had its
    input written), it stops with the error of the read, having yielded
    the pairs before it. *)
Theorem iter_with_inputs_needs_the_input_blob (m : HTCMapper)
    (cid : option Z) (pre : list string) (h : string) (post : list string)
    (disk : nat → FS) (inb outb : string → string) (b : string)
    (timeout : option Z) (now fuel : nat) :
  (∀ h', h' ∈ pre →
     disk now !! output_path m h' = Some (outb h')
     ∧ disk now !! input_path m h' = Some (inb h')) →
  disk now !! output_path m h = Some b →
  disk now !! input_path m h = None →
  iter_with_inputs (S fuel) disk (MapResult_init m cid (pre ++ h :: post))
    timeout now
  = Some ((λ h', (loads (inb h'), loads (outb h'))) <$> pre,
          Some FileNotFoundError, now).
Proof.
  intros Hpre Hout Hin. unfold iter_with_inputs.
  change (hashes (MapResult_init m cid (pre ++ h :: post)))
    with (pre ++ h :: post).
  rewrite (iter_with_inputs_loop_present _ _ _ inb outb) by done.
  cbn [iter_with_inputs_loop].
  rewrite (wait_for_path_present _ _ _ b) by done.
  cbn [mapper MapResult_init]. unfold load_object at 1. rewrite Hin.
  by rewrite gen_app_stop.
Qed.


(** ** Waiting for all outputs *)

Lemma length_append (s t : string) :
  String.length (s +:+ t) = (String.length s + String.length t)%nat.
Proof.
  induction s as [|c s IH]; [done|]. rewrite append_String. simpl. by rewrite IH.
Qed.

Lemma rfind_dot_out (h : string) :
  rfind_dot (h +:+ ".out") = Some (String.length h).
Proof.
  induction h as [|c h IH]; [done|]. rewrite append_String. simpl.
  by rewrite IH.
Qed.

Lemma substring_append (h t : string) :
  String.substring 0 (String.length h) (h +:+ t) = h.
Proof.
  induction h as [|c h IH]; [by destruct t|].
  rewrite append_String. simpl. by rewrite IH.
Qed.

(** The stem of the name of an output blob is its fingerprint, unless the
    fingerprint is empty: the name is [.out] then, which has no suffix. *)
Lemma stem_out (h : string) : h ≠ EmptyString → stem (h +:+ ".out") = h.
Proof.
  intros Hh. unfold stem. rewrite rfind_dot_out, length_append. simpl.
  assert (0 < String.length h)%nat as Hlen by (destruct h; simpl; [done|lia]).
  rewrite (proj2 (Nat.ltb_lt 0 (String.length h))) by done.
  rewrite (proj2 (Nat.ltb_lt (String.length h) (String.length h + 4 - 1)))
    by lia.
  simpl. apply substring_append.
Qed.

Lemma entry_name_child (dir : Path) (name0 : string) :
  entry_name dir (dir </> name0) = Some name0.
Proof.
  unfold path_div. induction dir as [|d dir IH]; [done|].
  simpl. by rewrite String.eqb_refl.
Qed.

Lemma elem_of_iterdir_stems (fs : FS) (dir : Path) (s : string) :
  s ∈ iterdir_stems fs dir
  ↔ ∃ p entry, is_Some (fs !! p) ∧ entry_name dir p = Some entry
               ∧ s = stem entry.
Proof.
  unfold iterdir_stems. rewrite elem_of_list_to_set, list_elem_of_fmap.
  split.
  - intros (entry & -> & (p & Hp & Hentry)%list_elem_of_omap).
    exists p, entry. split; [|done].
    by apply elem_of_dom, elem_of_elements.
  - intros (p & entry & Hp & Hentry & ->). exists entry. split; [done|].
    apply list_elem_of_omap. exists p. split; [|done].
    by apply elem_of_elements, elem_of_dom.
Qed.

Lemma is_missing_hashes_false (fs : FS) (r : MapResult) :
  is_missing_hashes fs r = false
  ↔ ∀ h, h ∈ hash_set r → h ∈ iterdir_stems fs (outputs_dir (mapper r)).
Proof.
  unfold is_missing_hashes. simpl. rewrite bool_decide_eq_false. split.
  - intros Hsize h Hh.
    destruct (decide (h ∈ iterdir_stems fs (outputs_dir (mapper r))))
      as [|Hnot]; [done|].
    exfalso. apply Hsize. intros Hempty%size_empty_iff.
    rewrite elem_of_equiv_empty in Hempty.
    apply (Hempty h). by apply elem_of_difference.
  - intros Hsub Hsize. apply Hsize, size_empty_iff, elem_of_equiv_empty.
    intros h [Hh Hnot]%elem_of_difference. by apply Hnot, Hsub.
Qed.

(** With the output blob of every fingerprint in the store, none is
    missing. *)
Lemma outputs_present_none_missing (fs : FS) (m : HTCMapper)
    (cid : option Z) (hs : list string) :
  (∀ h, h ∈ hs → h ≠ EmptyString ∧ is_Some (fs !! output_path m h)) →
  is_missing_hashes fs (MapResult_init m cid hs) = false.
Proof.
  intros Hall. apply is_missing_hashes_false. simpl.
  intros h Hh%elem_of_list_to_set. destruct (Hall h Hh) as [Hne Hsome].
  apply elem_of_iterdir_stems.
  exists (output_path m h), (h +:+ ".out"). split; [done|]. split.
  - apply entry_name_child.
  - by rewrite stem_out.
Qed.

Lemma wait_while_missing_returns (fuel : nat) (disk : nat → FS)
    (r : MapResult) (start now last : nat) :
  (∀ t, (last ≤ t)%nat → is_missing_hashes (disk t) r = false) →
  (last - now < fuel)%nat →
  ∃ T,
    wait_while_missing fuel disk r None start now = Some (Ok (), T)
    ∧ (now ≤ T ≤ Nat.max now last)%nat.
Proof.
  intros Hlast. revert now.
  induction fuel as [|fuel IH]; intros now Hfuel; [lia|].
  simpl. destruct (is_missing_hashes (disk now) r) eqn:Hmissing.
  - assert (now < last)%nat as Hlt.
    { destruct (decide (now < last)%nat); [done|].
      rewrite Hlast in Hmissing by lia. done. }
    destruct (IH (S now)) as (T & -> & HT); [lia|].
    exists T. split; [done|lia].
  - exists now. split; [done|lia].
Qed.

(** X16.  [wait] without timeout returns once the output blob of every
    fingerprint of the handle is in the store, no later than the first
    check after the last of them has been written; for a handle without
    items it returns at once. *)
Theorem wait_returns_when_outputs_are_there (m : HTCMapper)
    (cid : option Z) (hs : list string) (disk : nat → FS)
    (arr : string → nat) (blob : string → string) (now fuel last : nat) :
  (∀ h, h ∈ hs →
     h ≠ EmptyString
     ∧ written_at disk (output_path m h) (arr h) (blob h)
     ∧ (arr h ≤ last)%nat) →
  (last - now < fuel)%nat →
  ∃ T,
    wait fuel disk (MapResult_init m cid hs) None now = Some (Ok (), T)
    ∧ (now ≤ T ≤ Nat.max now last)%nat.
Proof.
  intros Hall Hfuel. unfold wait.
  apply wait_while_missing_returns; [|done].
  intros t Ht. apply outputs_present_none_missing.
  intros h Hh. destruct (Hall h Hh) as (Hne & Hw & Harr).
  split; [done|]. rewrite (Hw t), decide_True by lia. by eexists.
Qed.



Lemma wait_while_missing_Ok (fuel : nat) (disk : nat → FS) (r : MapResult)
    (timeout : option Z) (start now T : nat) :
  wait_while_missing fuel disk r timeout start now = Some (Ok (), T) →
  is_missing_hashes (disk T) r = false.
Proof.
  revert now. induction fuel as [|fuel IH]; intros now; [done|].
  simpl. destruct (is_missing_hashes (disk now) r) eqn:Hmissing.
  - destruct (match timeout with Some _ => _ | None => _ end); [done|].
    apply IH.
  - by intros [= <-].
Qed.

(** X18.  After [wait] has returned, every item of the handle is there for
    a non-blocking [get], provided that the outputs directory holds output
    blobs only (files [<fingerprint>.out] of non-empty fingerprints, as the
    execution wrapper writes them): [wait] compares stems of any entries,
    [get] looks for the [.out] file. *)
Theorem after_wait_every_item_is_available (m : HTCMapper)
    (cid : option Z) (hs : list string) (disk : nat → FS)
    (timeout : option Z) (now fuel T : nat) :
  wait fuel disk (MapResult_init m cid hs) timeout now = Some (Ok (), T) →
  (∀ p entry,
     is_Some (disk T !! p) → entry_name (outputs_dir m) p = Some entry →
     ∃ h', h' ≠ EmptyString ∧ p = output_path m h') →
  ∀ h, h ∈ hs →
    ∃ b, disk T !! output_path m h = Some b
         ∧ getitem disk (MapResult_init m cid hs) (Hash h) T
           = Some (Ok (loads b), T).
Proof.
  intros Hwait Hlayout h Hh. unfold wait in Hwait.
  apply wait_while_missing_Ok in Hwait.
  rewrite is_missing_hashes_false in Hwait.
  specialize (Hwait h). simpl in Hwait.
  rewrite elem_of_list_to_set, elem_of_iterdir_stems in Hwait.
  destruct (Hwait Hh) as (p & entry & [b Hb] & Hentry & Hstem).
  destruct (Hlayout p entry) as (h' & Hne & ->); [by eexists|done|].
  unfold output_path in Hentry. rewrite entry_name_child in Hentry.
  injection Hentry as <-. rewrite stem_out in Hstem by done. subst h'.
  exists b. split; [done|].
  unfold getitem. rewrite (get_member _ _ _ _ _ _ h) by done.
  rewrite (wait_for_path_present _ _ _ b) by done.
  unfold load_object. by rewrite Hb.
Qed.


(** ** The logs of an item *)

Lemma append_empty_r (s : string) : s +:+ EmptyString = s.
Proof.
  induction s as [|c s IH]; [done|]. rewrite append_String. by rewrite IH.
Qed.

Lemma join_empty_sep_cons (x : string) (xs : list string) :
  join EmptyString (x :: xs) = x +:+ join EmptyString xs.
Proof.
  destruct xs as [|y ys]; simpl; [by rewrite append_empty_r|done].
Qed.

(** Joining the lines of a text gives the text back. *)
Lemma join_split_lines (s : string) : join EmptyString (split_lines s) = s.
Proof.
  induction s as [|c s IH]; [done|].
  cbn [split_lines]. destruct (Ascii.eqb c LF).
  - rewrite join_empty_sep_cons, IH. by rewrite append_String.
  - destruct (split_lines s) as [|l ls].
    + simpl in *. by subst s.
    + rewrite join_empty_sep_cons in *. rewrite append_String. by rewrite IH.
Qed.

(** X19.  [output] and [error] give the text of the log file of the item
    with its line ends translated to line feeds, since joining the lines
    the file yields gives the text back.  A fingerprint is taken as it is:
    the log of a fingerprint that is not in the handle is read as well,
    where [get] raises [HashNotInResult]. *)
Theorem output_is_the_log_text (fs : FS) (r : MapResult) (h text : string) :
  fs !! (job_logs_dir (mapper r) </> (h +:+ ".out")) = Some text →
  output fs r (Hash h) = Ok (universal_newlines text)
  ∧ (∀ i, tuple_index (hashes r) i = Ok h →
       output fs r (Index i) = Ok (universal_newlines text))
  ∧ (∀ etext,
       fs !! (job_logs_dir (mapper r) </> (h +:+ ".err")) = Some etext →
       error fs r (Hash h) = Ok (universal_newlines etext)).
Proof.
  intros Hout. split; [|split].
  - unfold output, iter_output. simpl. rewrite Hout.
    unfold file_lines. by rewrite join_split_lines.
  - intros i Hi. unfold output, iter_output. simpl. rewrite Hi, Hout.
    unfold file_lines. by rewrite join_split_lines.
  - intros etext Herr. unfold error, iter_error. simpl. rewrite Herr.
    unfold file_lines. by rewrite join_split_lines.
Qed.

(** Two names that end differently are different. *)
Lemma append_suffix_ne (h h' s s' : string) (c c' : ascii)
    (l l' : list ascii) :
  reverse (String.list_ascii_of_string s) = c :: l →
  reverse (String.list_ascii_of_string s') = c' :: l' →
  c ≠ c' →
  h +:+ s ≠ h' +:+ s'.
Proof.
  intros Hs Hs' Hc Heq. apply (f_equal String.list_ascii_of_string) in Heq.
  rewrite !list_ascii_of_append in Heq. apply (f_equal reverse) in Heq.
  rewrite !reverse_app, Hs, Hs' in Heq. simpl in Heq. congruence.
Qed.

Lemma append_suffix_ne_3 (h h' s s' : string) (a b c c' : ascii)
    (l l' : list ascii) :
  reverse (String.list_ascii_of_string s) = a :: b :: c :: l →
  reverse (String.list_ascii_of_string s') = a :: b :: c' :: l' →
  c ≠ c' →
  h +:+ s ≠ h' +:+ s'.
Proof.
  intros Hs Hs' Hc Heq. apply (f_equal String.list_ascii_of_string) in Heq.
  rewrite !list_ascii_of_append in Heq. apply (f_equal reverse) in Heq.
  rewrite !reverse_app, Hs, Hs' in Heq. simpl in Heq. congruence.
Qed.

Lemma append_suffix_ne_2 (h h' s s' : string) (a b b' : ascii)
    (l l' : list ascii) :
  reverse (String.list_ascii_of_string s) = a :: b :: l →
  reverse (String.list_ascii_of_string s') = a :: b' :: l' →
  b ≠ b' →
  h +:+ s ≠ h' +:+ s'.
Proof.
  intros Hs Hs' Hc Heq. apply (f_equal String.list_ascii_of_string) in Heq.
  rewrite !list_ascii_of_append in Heq. apply (f_equal reverse) in Heq.
  rewrite !reverse_app, Hs, Hs' in Heq. simpl in Heq. congruence.
Qed.

Lemma out_not_job_log (h h' : string) :
  h +:+ ".out" ≠ h' +:+ ".output" ∧ h +:+ ".out" ≠ h' +:+ ".error".
Proof.
  split.
  - by eapply append_suffix_ne_3.
  - by eapply append_suffix_ne.
Qed.

Lemma err_not_job_log (h h' : string) :
  h +:+ ".err" ≠ h' +:+ ".output" ∧ h +:+ ".err" ≠ h' +:+ ".error".
Proof.
  split.
  - by eapply append_suffix_ne.
  - by eapply append_suffix_ne_2.
Qed.

(** X20.  The submit description of [_map] names the logs of an item
    [<fingerprint>.output] and [<fingerprint>.error], while [iter_output]
    and [iter_error] open [<fingerprint>.out] and [<fingerprint>.err].  No
    name of the first kind is one of the second: as long as the job logs
    directory holds the files of the submit description only, the log
    readers raise [FileNotFoundError] for every fingerprint. *)
Theorem log_readers_miss_the_job_logs (fs : FS) (r : MapResult) :
  (∀ entry, is_Some (fs !! (job_logs_dir (mapper r) </> entry)) →
     ∃ h', job_logs_dir (mapper r) </> entry = job_output_path (mapper r) h'
           ∨ job_logs_dir (mapper r) </> entry
             = job_error_path (mapper r) h') →
  ∀ h,
    iter_output fs r (Hash h) = Raise FileNotFoundError
    ∧ iter_error fs r (Hash h) = Raise FileNotFoundError
    ∧ output fs r (Hash h) = Raise FileNotFoundError
    ∧ error fs r (Hash h) = Raise FileNotFoundError.
Proof.
  intros Hlogs h.
  assert (fs !! (job_logs_dir (mapper r) </> (h +:+ ".out")) = None) as Hout.
  { destruct (fs !! _) as [text|] eqn:Hfile; [|done]. exfalso.
    destruct (Hlogs (h +:+ ".out")) as (h' & [Heq|Heq]); [by eexists|..];
      apply path_div_inj in Heq as [_ Heq];
      by apply (out_not_job_log h h') in Heq. }
  assert (fs !! (job_logs_dir (mapper r) </> (h +:+ ".err")) = None) as Herr.
  { destruct (fs !! (job_logs_dir (mapper r) </> (h +:+ ".err")))
      as [text|] eqn:Hfile; [|done]. exfalso.
    destruct (Hlogs (h +:+ ".err")) as (h' & [Heq|Heq]); [by eexists|..];
      apply path_div_inj in Heq as [_ Heq];
      by apply (err_not_job_log h h') in Heq. }
  unfold output, error, iter_output, iter_error. simpl.
  by rewrite Hout, Herr.
Qed.


(** ** The as-available iterations have no timeout *)

Section AsAvailableStuck.
Context `{Countable K} {O : Type}.
Variable ready : FS → K → bool.
Variable load : FS → K → result O.

Lemma scan_invariant (fs : FS) (todo : list K) (paths : gset K) (p : K) :
  (∀ q, q ∈ todo → ready fs q = true → ∃ o, load fs q = Ok o) →
  ready fs p = false →
  ∃ paths' objs,
    scan ready load fs todo paths = (paths', objs, None)
    ∧ paths' ⊆ paths
    ∧ (p ∈ paths → p ∈ paths').
Proof.
  intros Hload Hp. revert paths Hload.
  induction todo as [|q todo IH]; intros paths Hload.
  - by exists paths, [].
  - simpl. destruct (ready fs q) eqn:Hq; simpl.
    + destruct (Hload q) as [o ->]; [by left|done|].
      destruct (IH (paths ∖ {[q]})) as (paths' & objs & -> & Hsub & Hin).
      { intros q' Hq'. apply Hload. by right. }
      exists paths', (o :: objs). split; [done|]. split.
      * intros x Hx. specialize (Hsub x Hx).
        by apply elem_of_difference in Hsub as [? _].
      * intros Hpin. apply Hin, elem_of_difference. split; [done|].
        intros ->%elem_of_singleton. congruence.
    + apply IH. intros q' Hq'. apply Hload. by right.
Qed.

Lemma as_available_loop_stuck (disk : nat → FS) (p : K) (fuel : nat)
    (paths all : gset K) (now : nat) :
  (∀ t q, q ∈ all → ready (disk t) q = true → ∃ o, load (disk t) q = Ok o) →
  (∀ t, ready (disk t) p = false) →
  paths ⊆ all →
  p ∈ paths →
  as_available_loop ready load fuel disk paths now = None.
Proof.
  intros Hload Hp. revert paths now.
  induction fuel as [|fuel IH]; intros paths now Hsub Hin; [done|].
  simpl. rewrite bool_decide_eq_true_2; last first.
  { destruct (decide (size paths = 0)%nat) as [Hsize|]; [|lia].
    apply size_empty_iff in Hsize. rewrite elem_of_equiv_empty in Hsize.
    by destruct (Hsize p). }
  destruct (scan_invariant (disk now) (set_iter K paths) paths p)
    as (paths' & objs & -> & Hsub' & Hin'); [|done|].
  { intros q Hq. apply Hload, Hsub.
    rewrite (set_iter_perm K paths) in Hq. by apply elem_of_elements in Hq. }
  rewrite IH; [done| |by apply Hin'].
  intros x Hx. by apply Hsub, Hsub'.
Qed.
End AsAvailableStuck.

(** X21.  [iter_as_available] and [iter_as_available_with_inputs] take no
    timeout and raise none: while the output of one item of the handle is
    missing, they keep polling, whatever they have yielded, and never
    finish. *)
Theorem iter_as_available_never_gives_up (m : HTCMapper) (cid : option Z)
    (hs : list string) (h : string) (disk : nat → FS) :
  h ∈ hs →
  (∀ t, disk t !! output_path m h = None) →
  ∀ fuel now,
    iter_as_available fuel disk (MapResult_init m cid hs) now = None
    ∧ iter_as_available_with_inputs fuel disk (MapResult_init m cid hs) now
      = None.
Proof.
  intros Hh Hnever fuel now. split.
  - unfold iter_as_available.
    apply (as_available_loop_stuck _ _ _ (output_path m h) _ _
             (list_to_set (output_path m <$> hs))).
    + intros t q _ Hq. unfold path_exists in Hq. unfold load_object.
      destruct (disk t !! q) as [b|]; [by eexists|done].
    + intros t. by apply path_exists_None.
    + done.
    + simpl. apply elem_of_list_to_set, list_elem_of_fmap. by exists h.
  - unfold iter_as_available_with_inputs.
    apply (as_available_loop_stuck _ _ _ (output_path m h, output_path m h)
             _ _ (input_output_paths (MapResult_init m cid hs))).
    + intros t q Hq Hready. unfold input_output_paths in Hq. simpl in Hq.
      apply elem_of_list_to_set, list_elem_of_fmap in Hq as (h' & -> & _).
      simpl in Hready. unfold path_exists in Hready.
      unfold load_pair, load_object.
      destruct (disk t !! output_path m h') as [b|]; [by eexists|done].
    + intros t. simpl. by apply path_exists_None.
    + done.
    + unfold input_output_paths. simpl.
      apply elem_of_list_to_set, list_elem_of_fmap. by exists h.
Qed.


(** ** [condormap.Job] *)

Lemma Job_iter_loop_grace (disk : nat → FS) (job : Job) (arr : Z → nat)
    (blob : Z → string) (start : nat) (procids : list Z) (now : nat) :
  (∀ k, k ∈ procids →
     written_at disk (Job_outputs_dir job </> (pretty k +:+ ".out"))
       (arr k) (blob k)
     ∧ (arr k ≤ S start)%nat) →
  (start ≤ now ≤ S start)%nat →
  ∃ T,
    Job_iter_loop disk job procids now
    = ((λ k, loads (blob k)) <$> procids, None, T)
    ∧ (now ≤ T ≤ S start)%nat.
Proof.
  revert now. induction procids as [|k ks IH]; intros now Hall Hnow.
  - exists now. split; [done|lia].
  - destruct (Hall k) as [Hw Harr]; [by left|].
    simpl. rewrite (written_at_exists _ _ _ _ now Hw).
    case_bool_decide as Hk.
    + rewrite (Hw now), decide_True by done.
      destruct (IH now) as (T & -> & HT); [|lia|].
      { intros k' Hk'. apply Hall. by right. }
      exists T. split; [done|lia].
    + rewrite (Hw (S now)), decide_True by lia.
      destruct (IH (S now)) as (T & -> & HT); [|lia|].
      { intros k' Hk'. apply Hall. by right. }
      exists T. split; [done|lia].
Qed.

(** X22.  Iterating over a [Job] yields the outputs in the order of the
    process ids as long as every output is there one second after the
    start; the iteration sleeps at most once. *)
Theorem job_iter_one_second_of_grace (disk : nat → FS) (job : Job)
    (arr : Z → nat) (blob : Z → string) (now : nat) :
  (∀ k, k ∈ (Job_jobid_to_arg job).*1 →
     written_at disk (Job_outputs_dir job </> (pretty k +:+ ".out"))
       (arr k) (blob k)
     ∧ (arr k ≤ S now)%nat) →
  ∃ T,
    Job_iter disk job now
    = ((λ k, loads (blob k)) <$> (Job_jobid_to_arg job).*1, None, T)
    ∧ (now ≤ T ≤ S now)%nat.
Proof.
  intros Hall. unfold Job_iter.
  apply (Job_iter_loop_grace _ _ arr blob now); [done|lia].
Qed.

Lemma Job_iter_loop_present (disk : nat → FS) (job : Job) (arr : Z → nat)
    (blob : Z → string) (pre rest : list Z) (now : nat) :
  (∀ k, k ∈ pre →
     written_at disk (Job_outputs_dir job </> (pretty k +:+ ".out"))
       (arr k) (blob k)
     ∧ (arr k ≤ now)%nat) →
  Job_iter_loop disk job (pre ++ rest) now
  = gen_app ((λ k, loads (blob k)) <$> pre)
      (Job_iter_loop disk job rest now).
Proof.
  induction pre as [|k ks IH]; intros Hall.
  - simpl. by destruct (Job_iter_loop disk job rest now) as [[ys e] t].
  - destruct (Hall k) as [Hw Harr]; [by left|].
    simpl. rewrite (written_at_exists _ _ _ _ now Hw).
    rewrite bool_decide_eq_true_2 by done.
    rewrite (Hw now), decide_True by done.
    by rewrite IH by (intros k' Hk'; apply Hall; by right).
Qed.

(** X23.  A [Job] waits one second for an output and no longer: the
    iteration raises [FileNotFoundError] at the first process id whose
    output is still missing one second after it was reached, having
    yielded the outputs before it. *)
Theorem job_iter_gives_up_after_one_second (disk : nat → FS) (job : Job)
    (arr : Z → nat) (blob : Z → string) (pre post : list Z) (k : Z)
    (now : nat) :
  (Job_jobid_to_arg job).*1 = pre ++ k :: post →
  (∀ k', k' ∈ pre →
     written_at disk (Job_outputs_dir job </> (pretty k' +:+ ".out"))
       (arr k') (blob k')
     ∧ (arr k' ≤ now)%nat) →
  disk now !! (Job_outputs_dir job </> (pretty k +:+ ".out")) = None →
  disk (S now) !! (Job_outputs_dir job </> (pretty k +:+ ".out")) = None →
  Job_iter disk job now
  = ((λ k', loads (blob k')) <$> pre, Some FileNotFoundError, S now).
Proof.
  intros Hids Hpre Hnow Hlater. unfold Job_iter. rewrite Hids.
  rewrite (Job_iter_loop_present _ _ arr blob) by done.
  simpl. rewrite (path_exists_None _ _ Hnow), Hlater.
  unfold gen_app. simpl. by rewrite app_nil_r.
Qed.

End Htcmap.

(** * The small instance at work

    The map of a function called [double], kept under [home/.htcmap]; the
    objects are the blobs themselves. *)

Abbreviation toy_dir := ["home"; ".htcmap"].
Abbreviation toy_mapper :=
  (Build_HTCMapper (PlainFunc "double") "double" []).
Abbreviation toy_loads := (λ b : string, b).
Abbreviation toy_out h := (output_path toy_dir toy_mapper h).
Abbreviation toy_in h := (input_path toy_dir toy_mapper h).
Abbreviation toy_handle hs := (MapResult_init toy_mapper None hs).

(** A store without any output, at all times. *)
Abbreviation disk_never := (λ _ : nat, (∅ : FS)).

(** The output of ["0a"] arrives after two seconds, the output of ["0b"]
    after one. *)
Abbreviation disk_ab :=
  (λ t : nat,
     if decide (2 ≤ t)%nat
     then ({[ toy_out "0a" := "A"; toy_out "0b" := "B" ]} : FS)
     else if decide (1 ≤ t)%nat then {[ toy_out "0b" := "B" ]} else ∅).
Abbreviation arr_ab :=
  (λ p : Path, match last p with Some "0b.out" => 1%nat | _ => 2%nat end).
Abbreviation blob_ab :=
  (λ p : Path, match last p with Some "0b.out" => "B" | _ => "A" end).

(** Premises over explicit lists of the instance are settled by running
    the definitions on each element. *)
Ltac run_Forall :=
  simpl;
  repeat first
    [by apply Forall_nil | apply Forall_cons; split; [by vm_compute|]].

Example toy_fingerprint :
  fingerprint toy_to_bytes toy_hash ([1], []) = "0313b".
Proof. reflexivity. Qed.

(** C1: on a store with both outputs in place, a second invocation submits
    nothing and still holds both fingerprints. *)
Lemma planner_skips_satisfied_items_witness :
  _map toy_to_bytes toy_hash toy_dir toy_mapper [([1], []); ([2], [])]
    {[ toy_out "0313b" := "2"; toy_out "0323b" := "4" ]}
    {| next_clusterid := 8; queued := [] |}
  = ({[ toy_out "0313b" := "2"; toy_out "0323b" := "4" ]},
     {| next_clusterid := 8; queued := [] |},
     MapResult_init toy_mapper None ["0313b"; "0323b"]).
Proof.
  destruct (planner_skips_satisfied_items toy_to_bytes toy_hash toy_dir
              toy_mapper [([1], []); ([2], [])] ∅
              {| next_clusterid := 7; queued := [] |})
    as (fs' & schedd' & r & Hmap & Hhs & _ & _ & _ & _ & Hagain).
  rewrite (Hagain {[ toy_out "0313b" := "2"; toy_out "0323b" := "4" ]}
             {| next_clusterid := 8; queued := [] |}).
  - by rewrite Hhs.
  - rewrite Hhs. run_Forall.
Defined.

(** C1: right after a first invocation, with no output written yet, the
    same invocation queues the same work item again. *)
Lemma second_invocation_resubmits :
  let first :=
    _map toy_to_bytes toy_hash toy_dir toy_mapper [([1], [])] ∅
      {| next_clusterid := 1; queued := [] |} in
  let second :=
    _map toy_to_bytes toy_hash toy_dir toy_mapper [([1], [])]
      first.1.1 first.1.2 in
  clusterid second.2 = Some 2
  ∧ queued second.1.2 = [(1, "double", ["0313b"]); (2, "double", ["0313b"])].
Proof. split; by vm_compute. Qed.

(** C2: two new items, cluster 7. *)
Lemma manifest_round_trip_witness :
  ∃ fs' schedd' r cid,
    _map toy_to_bytes toy_hash toy_dir toy_mapper [([1], []); ([2], [])] ∅
      {| next_clusterid := 7; queued := [] |} = (fs', schedd', r)
    ∧ clusterid r = Some cid
    ∧ hashes r
      = fingerprint toy_to_bytes toy_hash <$> [([1], []); ([2], [])]
    ∧ fs' !! manifest_path toy_dir toy_mapper cid
      = Some (join NL (hashes r))
    ∧ from_clusterid toy_dir toy_mapper cid fs' = Ok r.
Proof.
  apply manifest_round_trip.
  - run_Forall.
  - apply Exists_cons_hd. by vm_compute.
Defined.

(** C3: three positional tuples against one keyword mapping. *)
Lemma zip_args_and_kwargs_ragged_witness :
  ∃ pairs,
    zip_args_and_kwargs 4 [[1]; [2]; [3]] [[("k", 5)]] = Some pairs
    ∧ length pairs = 3%nat
    ∧ (∀ i, (i < 3)%nat →
         pairs !! i
         = Some (default [] ([[1]; [2]; [3]] !! i),
                 default [] ([[("k", 5)]] !! i)))
    ∧ ∀ (self : @HTCMapper string) fs schedd,
        ∃ fs' schedd' r,
          starmap toy_to_bytes toy_hash toy_dir 4 self [[1]; [2]; [3]]
            [[("k", 5)]] fs schedd = Some (fs', schedd', r)
          ∧ hashes r = fingerprint toy_to_bytes toy_hash <$> pairs
          ∧ length (hashes r) = 3%nat.
Proof.
  apply (zip_args_and_kwargs_ragged toy_to_bytes toy_hash toy_dir
           [[1]; [2]; [3]] [[("k", 5)]] 4).
  simpl. lia.
Defined.

(** C4: the second and the third work item do not use the sole keyword
    mapping [{k: 5}]. *)
Lemma starmap_pads_with_empty_mapping :
  ∃ pairs,
    zip_args_and_kwargs 4 [[1]; [2]; [3]] [[("k", 5)]] = Some pairs
    ∧ ¬ Forall (λ p, p.2 = [("k", 5)]) pairs.
Proof.
  eexists. split; [reflexivity|].
  intros Hall. apply Forall_cons in Hall as [_ Hall].
  by apply Forall_cons in Hall as [? _].
Qed.

(** C6: the three cases of the timeout, on the first item of a handle: an
    output that never comes, asked for without blocking and with five
    seconds, and an output that comes after two seconds. *)
Lemma get_timeout_semantics_witness :
  get toy_loads toy_dir 1 disk_never (toy_handle ["0a"; "0b"]) (Index 0)
    (Some 0) 0 = Some (Raise OutputNotFound, 0%nat)
  ∧ get toy_loads toy_dir 6 disk_never (toy_handle ["0a"; "0b"]) (Index 0)
      (Some 5) 0 = Some (Raise TimeoutError, 5%nat)
  ∧ get toy_loads toy_dir 6 disk_ab (toy_handle ["0a"; "0b"]) (Index 0)
      (Some 5) 0 = Some (Ok "A", 2%nat).
Proof.
  assert ("0a" ∈ ["0a"; "0b"]) as Hin by by left.
  destruct (get_timeout_semantics toy_loads toy_dir toy_mapper None
              ["0a"; "0b"] (Index 0) "0a" disk_never 0 eq_refl Hin)
    as [Hnever _].
  destruct (Hnever (λ t, lookup_empty _)) as [Hget _].
  destruct (get_timeout_semantics toy_loads toy_dir toy_mapper None
              ["0a"; "0b"] (Index 0) "0a" disk_ab 0 eq_refl Hin)
    as [_ Harrives].
  split; [|split].
  - apply (Hget 0 1%nat). simpl. lia.
  - apply (Hget 5 6%nat). simpl. lia.
  - apply (Harrives 2%nat "A" 5 6%nat); [lia|lia|lia| |by vm_compute].
    intros t Ht. rewrite decide_False by lia.
    destruct (decide (1 ≤ t)%nat); by vm_compute.
Defined.

(** C6: a negative timeout is not zero, and [get] still answers
    [OutputNotFound] in place of the [TimeoutError] of the wait. *)
Lemma get_negative_timeout_output_not_found :
  wait_for_path_to_exist 1 disk_never (toy_out "0a") (Some (-1)) 0
  = Some (Raise TimeoutError, 0%nat)
  ∧ get toy_loads toy_dir 1 disk_never (toy_handle ["0a"; "0b"]) (Index 0)
      (Some (-1)) 0 = Some (Raise OutputNotFound, 0%nat).
Proof. split; by vm_compute. Qed.

(** C7: two fingerprints, the second output arriving first. *)
Lemma iter_as_available_complete_witness :
  ∃ xs t ys t',
    iter toy_loads toy_dir 5 disk_ab (MapResult_init toy_mapper None ["0a"; "0b"])
      None 0 = Some (xs, None, t)
    ∧ iter_as_available toy_loads toy_dir toy_set_iter 5 disk_ab
        (MapResult_init toy_mapper None ["0a"; "0b"]) 0 = Some (ys, None, t')
    ∧ xs = (λ h, toy_loads (blob_ab (toy_out h))) <$> ["0a"; "0b"]
    ∧ ys ≡ₚ (λ h, toy_loads (blob_ab (toy_out h)))
              <$> remove_dups ["0a"; "0b"]
    ∧ (∀ o, o ∈ ys ↔ o ∈ xs)
    ∧ (NoDup ["0a"; "0b"] → ys ≡ₚ xs).
Proof.
  apply (iter_as_available_complete toy_loads toy_dir toy_set_iter
           (λ K _ _ s, reflexivity (elements s))
           toy_mapper None ["0a"; "0b"] disk_ab arr_ab blob_ab 0 5).
  - intros h Hh t. apply list_elem_of_In in Hh as [<-|[<-|[]]];
      by destruct t as [|[|t]].
  - lia.
  - intros h Hh. apply list_elem_of_In in Hh as [<-|[<-|[]]]; simpl; lia.
Defined.

(** C7: a handle that holds the same fingerprint twice (the same call
    mapped twice): [iter] yields its output twice, [iter_as_available]
    once, so the two do not agree up to order. *)
Lemma iter_as_available_drops_repeated_item :
  iter toy_loads toy_dir 2 (λ _, {[ toy_out "0a" := "A" ]})
    (toy_handle ["0a"; "0a"]) None 0 = Some (["A"; "A"], None, 0%nat)
  ∧ iter_as_available toy_loads toy_dir toy_set_iter 2
      (λ _, {[ toy_out "0a" := "A" ]}) (toy_handle ["0a"; "0a"]) 0
    = Some (["A"], None, 1%nat)
  ∧ ¬ ["A"] ≡ₚ ["A"; "A"].
Proof.
  split; [by vm_compute|]. split; [by vm_compute|].
  intros Hperm. by apply Permutation_length in Hperm.
Qed.

(** C8: a fingerprint that is not in the handle, an index beyond the end,
    and the last item by a negative index. *)
Lemma get_item_not_in_result_witness :
  get toy_loads toy_dir 1 disk_never (toy_handle ["0a"; "0b"]) (Hash "0c")
    None 0 = Some (Raise HashNotInResult, 0%nat)
  ∧ get toy_loads toy_dir 1 disk_never (toy_handle ["0a"; "0b"]) (Index 2)
      None 0 = Some (Raise IndexError, 0%nat)
  ∧ ∃ h, _item_to_hash (toy_handle ["0a"; "0b"]) (Index (-1)) = Ok h
         ∧ h ∈ hash_set (toy_handle ["0a"; "0b"]).
Proof.
  destruct (get_item_not_in_result toy_loads toy_dir toy_mapper None
              ["0a"; "0b"] disk_never 1 None 0) as (Hhash & Hindex & Hin).
  split; [|split].
  - apply Hhash. intros Hc. apply list_elem_of_In in Hc. simpl in Hc.
    by destruct Hc as [|[|[]]].
  - apply Hindex. simpl. lia.
  - apply Hin. simpl. lia.
Defined.

(** C8: an index that is no position of the sequence fails with
    [IndexError], not with [HashNotInResult]. *)
Lemma get_index_out_of_range_raises_IndexError :
  get toy_loads toy_dir 1 disk_never (toy_handle ["0a"]) (Index 1) (Some 0) 0
  = Some (Raise IndexError, 0%nat)
  ∧ getitem toy_loads toy_dir disk_never (toy_handle ["0a"]) (Index 1) 0
    ≠ Some (Raise HashNotInResult, 0%nat).
Proof. split; by vm_compute. Qed.

(** The store of [disk_ab] with both input blobs in place from the start. *)
Abbreviation disk_ab_inputs :=
  (λ t : nat,
     if decide (2 ≤ t)%nat
     then ({[ toy_in "0a" := "I0a"; toy_in "0b" := "I0b";
              toy_out "0a" := "A"; toy_out "0b" := "B" ]} : FS)
     else if decide (1 ≤ t)%nat
          then {[ toy_in "0a" := "I0a"; toy_in "0b" := "I0b";
                  toy_out "0b" := "B" ]}
          else {[ toy_in "0a" := "I0a"; toy_in "0b" := "I0b" ]}).

(** C9: the pairs yielded for two fingerprints. *)
Lemma iter_as_available_with_inputs_reads_output_twice_witness :
  input_output_paths toy_dir (toy_handle ["0a"; "0b"])
  = list_to_set ((λ h, (toy_out h, toy_out h)) <$> ["0a"; "0b"])
  ∧ (∃ ys t,
       iter_as_available_with_inputs toy_loads toy_dir toy_set_iter 5
         disk_ab_inputs (toy_handle ["0a"; "0b"]) 0 = Some (ys, None, t)
       ∧ ys ≡ₚ (λ h, (toy_loads (blob_ab (toy_out h)),
                      toy_loads (blob_ab (toy_out h))))
                 <$> remove_dups ["0a"; "0b"]
       ∧ ∀ inp out, (inp, out) ∈ ys →
           ∃ h, h ∈ ["0a"; "0b"] ∧ inp = toy_loads (blob_ab (toy_out h))
                ∧ out = toy_loads (blob_ab (toy_out h)))
  ∧ (∃ t,
       iter_with_inputs toy_loads toy_dir 5 disk_ab_inputs
         (toy_handle ["0a"; "0b"]) None 0
       = Some ((λ h, (toy_loads ("I" +:+ h),
                      toy_loads (blob_ab (toy_out h)))) <$> ["0a"; "0b"],
               None, t)).
Proof.
  apply (iter_as_available_with_inputs_reads_output_twice toy_loads toy_dir
           toy_set_iter (λ K _ _ s, reflexivity (elements s))
           toy_mapper None ["0a"; "0b"] disk_ab_inputs arr_ab blob_ab
           (λ h, "I" +:+ h) 0 5).
  - intros h Hh t. apply list_elem_of_In in Hh as [<-|[<-|[]]];
      by destruct t as [|[|t]].
  - intros h t Hh. apply list_elem_of_In in Hh as [<-|[<-|[]]];
      by destruct t as [|[|t]].
  - lia.
  - intros h Hh. apply list_elem_of_In in Hh as [<-|[<-|[]]]; simpl; lia.
Defined.


(** * The rest of the module on the small instance *)

(** X2: one combination of two values for [a] and two for [b]. *)
Lemma productmap_combinations_witness :
  ([1], [("a", 1); ("b", 4)])
  ∈ productmap_items [1] [("a", [1; 2]); ("b", [3; 4])].
Proof.
  apply (productmap_combinations [1] [("a", [1; 2]); ("b", [3; 4])]
           [("a", 1); ("b", 4)]).
  - by apply (bool_decide_unpack _).
  - repeat constructor; apply list_elem_of_In; simpl; auto.
Defined.

(** X3: no value for [b], so no work item. *)
Lemma productmap_empty_values_witness :
  productmap toy_to_bytes toy_hash toy_dir toy_mapper [1]
    [("a", [1; 2]); ("b", [])] ∅ {| next_clusterid := 7; queued := [] |}
  = (∅, {| next_clusterid := 7; queued := [] |},
     MapResult_init toy_mapper None []).
Proof.
  apply (productmap_empty_values toy_to_bytes toy_hash toy_dir toy_mapper
           [1] [("a", [1; 2]); ("b", [])] "b").
  apply list_elem_of_In. simpl. auto.
Defined.

(** X4: [map] over two values with one keyword. *)
Lemma map_is_starmap_witness :
  starmap toy_to_bytes toy_hash toy_dir 3 toy_mapper
    ((λ x, [x]) <$> [1; 2]) (replicate (length [1; 2]) [("k", 5)]) ∅
    {| next_clusterid := 7; queued := [] |}
  = Some (HTCMapper_map toy_to_bytes toy_hash toy_dir toy_mapper [1; 2]
            [("k", 5)] ∅ {| next_clusterid := 7; queued := [] |})
  ∧ hashes
      (HTCMapper_map toy_to_bytes toy_hash toy_dir toy_mapper [1; 2]
         [("k", 5)] ∅ {| next_clusterid := 7; queued := [] |}).2
    = (λ x, fingerprint toy_to_bytes toy_hash ([x], [("k", 5)])) <$> [1; 2]
  ∧ HTCMapper_map toy_to_bytes toy_hash toy_dir toy_mapper [] [("k", 5)] ∅
      {| next_clusterid := 7; queued := [] |}
    = (∅, {| next_clusterid := 7; queued := [] |},
       MapResult_init toy_mapper None []).
Proof.
  apply (map_is_starmap toy_to_bytes toy_hash toy_dir toy_mapper [1; 2]
           [("k", 5)] ∅ {| next_clusterid := 7; queued := [] |} 3).
  simpl. lia.
Defined.

(** X5: a block that calls the builder twice. *)
Lemma with_build_job_plans_the_calls_witness :
  JobBuilder_result
    (foldl (λ job c, JobBuilder_call job c.1 c.2) (build_job toy_mapper)
       [([1], []); ([2], [])])
  = Raise NoResultYet
  ∧ JobBuilder_len
      (foldl (λ job c, JobBuilder_call job c.1 c.2) (build_job toy_mapper)
         [([1], []); ([2], [])])
    = 2%nat
  ∧ ∃ fs' schedd' job r,
      with_build_job toy_to_bytes toy_hash toy_dir 3 toy_mapper
        [([1], []); ([2], [])] ∅ {| next_clusterid := 7; queued := [] |}
      = Some (fs', schedd', job)
      ∧ _map toy_to_bytes toy_hash toy_dir toy_mapper [([1], []); ([2], [])]
          ∅ {| next_clusterid := 7; queued := [] |} = (fs', schedd', r)
      ∧ JobBuilder_result job = Ok r
      ∧ JobBuilder_len job = 2%nat
      ∧ hashes r
        = fingerprint toy_to_bytes toy_hash <$> [([1], []); ([2], [])].
Proof.
  apply (with_build_job_plans_the_calls toy_to_bytes toy_hash toy_dir 3
           toy_mapper [([1], []); ([2], [])] ∅
           {| next_clusterid := 7; queued := [] |}).
  simpl. lia.
Defined.

(** X7: the first invocation on an empty store. *)
Lemma map_keeps_inputs_content_addressed_witness :
  (∀ h b,
     (_map toy_to_bytes toy_hash toy_dir toy_mapper [([1], []); ([2], [])] ∅
        {| next_clusterid := 7; queued := [] |}).1.1 !! toy_in h = Some b →
     toy_hash b = h)
  ∧ (∀ item,
       item ∈ [([1], []); ([2], [])] →
       ¬ path_exists ∅ (toy_out (fingerprint toy_to_bytes toy_hash item)) →
       ∃ b,
         (_map toy_to_bytes toy_hash toy_dir toy_mapper
            [([1], []); ([2], [])] ∅
            {| next_clusterid := 7; queued := [] |}).1.1
           !! toy_in (fingerprint toy_to_bytes toy_hash item) = Some b
         ∧ toy_hash b = fingerprint toy_to_bytes toy_hash item).
Proof.
  apply (map_keeps_inputs_content_addressed toy_to_bytes toy_hash toy_dir
           toy_mapper [([1], []); ([2], [])] ∅
           {| next_clusterid := 7; queued := [] |}).
  intros h b. by rewrite lookup_empty.
Defined.

(** X8: two items, no output yet, next cluster 7. *)
Lemma first_invocation_submits_every_item_witness :
  ∃ fs',
    _map toy_to_bytes toy_hash toy_dir toy_mapper [([1], []); ([2], [])] ∅
      {| next_clusterid := 7; queued := [] |}
    = (fs',
       {| next_clusterid := 7 + 1;
          queued := [] ++ [(7, "double", ["0313b"; "0323b"])] |},
       MapResult_init toy_mapper (Some 7) ["0313b"; "0323b"]).
Proof.
  apply (first_invocation_submits_every_item toy_to_bytes toy_hash toy_dir
           toy_mapper [([1], []); ([2], [])] ∅
           {| next_clusterid := 7; queued := [] |}).
  - done.
  - run_Forall.
Defined.

(** X9: the handle of a first batch after a second batch. *)
Lemma earlier_handle_stays_reconstructible_witness :
  ∃ fs1 schedd1 r1 cid1,
    _map toy_to_bytes toy_hash toy_dir toy_mapper [([1], [])] ∅
      {| next_clusterid := 7; queued := [] |} = (fs1, schedd1, r1)
    ∧ clusterid r1 = Some cid1
    ∧ ∀ fs1',
        fs1' !! manifest_path toy_dir toy_mapper cid1
        = fs1 !! manifest_path toy_dir toy_mapper cid1 →
        reconstruct toy_dir toy_mapper cid1
          (_map toy_to_bytes toy_hash toy_dir toy_mapper [([2], [])] fs1'
             schedd1).1.1
        = Ok r1.
Proof.
  apply (earlier_handle_stays_reconstructible toy_to_bytes toy_hash toy_dir
           toy_mapper [([1], [])] [([2], [])] ∅
           {| next_clusterid := 7; queued := [] |}).
  - run_Forall.
  - apply Exists_cons_hd. by vm_compute.
Defined.

(** X12: the module's [map] on the function and on its mapper, and on a
    name. *)
Lemma module_map_uses_function_name_witness :
  (∃ fs' m',
     module_map toy_to_bytes toy_hash (λ f : string, f) toy_dir
       (λ _, "blob") (NameCallable (MapperObj toy_mapper)) [1; 2] [] ∅
       {| next_clusterid := 7; queued := [] |}
     = Ok (HTCMapper_map toy_to_bytes toy_hash toy_dir m' [1; 2] [] fs'
             {| next_clusterid := 7; queued := [] |})
     ∧ module_map toy_to_bytes toy_hash (λ f : string, f) toy_dir
         (λ _, "blob") (NameCallable (PlainFunc "double")) [1; 2] [] ∅
         {| next_clusterid := 7; queued := [] |}
       = Ok (HTCMapper_map toy_to_bytes toy_hash toy_dir m' [1; 2] [] fs'
               {| next_clusterid := 7; queued := [] |})
     ∧ m' = toy_mapper)
  ∧ (∀ s,
       module_map toy_to_bytes toy_hash (λ f : string, f) toy_dir
         (λ _, "blob") (NameStr s) [1; 2] [] ∅
         {| next_clusterid := 7; queued := [] |}
       = Raise AttributeError)
  ∧ module_map toy_to_bytes toy_hash (λ f : string, f) toy_dir
      (λ _, "blob") NameNone [1; 2] [] ∅
      {| next_clusterid := 7; queued := [] |}
    = Raise AttributeError.
Proof.
  apply (module_map_uses_function_name toy_to_bytes toy_hash
           (λ f : string, f) toy_dir (λ _, "blob") toy_mapper "double"
           [1; 2] [] ∅ {| next_clusterid := 7; queued := [] |}).
  reflexivity.
Defined.

(** X13: the last item by its index, by its fingerprint and by the index
    counted from the start. *)
Lemma get_by_index_is_get_by_hash_witness :
  get toy_loads toy_dir 6 disk_ab (toy_handle ["0a"; "0b"]) (Index (-1))
    (Some 5) 0
  = get toy_loads toy_dir 6 disk_ab (toy_handle ["0a"; "0b"]) (Hash "0b")
      (Some 5) 0
  ∧ (-1 < 0 →
     get toy_loads toy_dir 6 disk_ab (toy_handle ["0a"; "0b"]) (Index (-1))
       (Some 5) 0
     = get toy_loads toy_dir 6 disk_ab (toy_handle ["0a"; "0b"])
         (Index (-1 + Z.of_nat (length ["0a"; "0b"]))) (Some 5) 0).
Proof.
  apply (get_by_index_is_get_by_hash toy_loads toy_dir toy_mapper None
           ["0a"; "0b"] (-1) "0b" 6 disk_ab (Some 5) 0).
  reflexivity.
Defined.

(** X14: the second of three outputs never comes. *)
Lemma iter_stops_at_first_missing_output_witness :
  iter toy_loads toy_dir 4 (λ _, {[ toy_out "0a" := "A" ]})
    (toy_handle (["0a"] ++ "0b" :: ["0c"])) (Some 3) 0
  = Some ((λ _, toy_loads "A") <$> ["0a"], Some TimeoutError,
          (0 + Z.to_nat 3)%nat).
Proof.
  apply (iter_stops_at_first_missing_output toy_loads toy_dir toy_mapper
           None ["0a"] "0b" ["0c"] (λ _, {[ toy_out "0a" := "A" ]})
           (λ _, "A") 3 0 4).
  - intros h' Hh'. apply list_elem_of_In in Hh' as [<-|[]]. by vm_compute.
  - intros t. by vm_compute.
  - simpl. lia.
Defined.

(** X15: the input blob of the second item has been removed. *)
Lemma iter_with_inputs_needs_the_input_blob_witness :
  iter_with_inputs toy_loads toy_dir (S 3)
    (λ _, {[ toy_in "0a" := "I"; toy_out "0a" := "A"; toy_out "0b" := "B" ]})
    (toy_handle (["0a"] ++ "0b" :: ["0c"])) None 0
  = Some ((λ _, (toy_loads "I", toy_loads "A")) <$> ["0a"],
          Some FileNotFoundError, 0%nat).
Proof.
  apply (iter_with_inputs_needs_the_input_blob toy_loads toy_dir toy_mapper
           None ["0a"] "0b" ["0c"]
           (λ _, {[ toy_in "0a" := "I"; toy_out "0a" := "A";
                    toy_out "0b" := "B" ]})
           (λ _, "I") (λ _, "A") "B" None 0 3).
  - intros h' Hh'. apply list_elem_of_In in Hh' as [<-|[]].
    split; by vm_compute.
  - by vm_compute.
  - by vm_compute.
Defined.

(** X16: both outputs of [disk_ab] are there after two seconds. *)
Lemma wait_returns_when_outputs_are_there_witness :
  ∃ T,
    wait toy_dir 3 disk_ab (toy_handle ["0a"; "0b"]) None 0
    = Some (Ok (), T)
    ∧ (0 ≤ T ≤ Nat.max 0 2)%nat.
Proof.
  apply (wait_returns_when_outputs_are_there toy_dir toy_mapper None
           ["0a"; "0b"] disk_ab
           (λ h, match h with "0b" => 1%nat | _ => 2%nat end)
           (λ h, match h with "0b" => "B" | _ => "A" end) 0 3 2).
  - intros h Hh. apply list_elem_of_In in Hh as [<-|[<-|[]]].
    + split; [done|]. split; [|simpl; lia].
      intros t. by destruct t as [|[|t]].
    + split; [done|]. split; [|simpl; lia].
      intros t. by destruct t as [|[|t]].
  - lia.
Defined.


(** X18: the only output is in place. *)
Lemma after_wait_every_item_is_available_witness :
  ∃ b, ({[ toy_out "0a" := "A" ]} : FS) !! toy_out "0a" = Some b
       ∧ getitem toy_loads toy_dir (λ _, {[ toy_out "0a" := "A" ]})
           (toy_handle ["0a"]) (Hash "0a") 0
         = Some (Ok (toy_loads b), 0%nat).
Proof.
  apply (after_wait_every_item_is_available toy_loads toy_dir toy_mapper
           None ["0a"] (λ _, {[ toy_out "0a" := "A" ]}) None 0 1 0).
  - by vm_compute.
  - intros p entry [b Hb] _. apply lookup_singleton_Some in Hb as [<- _].
    by exists "0a".
  - by left.
Defined.

(** X19: a log of two lines, the first ended by carriage return and line
    feed. *)
Lemma output_is_the_log_text_witness :
  output toy_dir
    {[ job_logs_dir toy_dir toy_mapper </> "0a.out"
       := "one" +:+ String CR (String LF "two") ]}
    (toy_handle ["0a"]) (Hash "0a")
  = Ok ("one" +:+ String LF "two").
Proof.
  apply (output_is_the_log_text toy_dir
           {[ job_logs_dir toy_dir toy_mapper </> "0a.out"
              := "one" +:+ String CR (String LF "two") ]}
           (toy_handle ["0a"]) "0a"
           ("one" +:+ String CR (String LF "two"))).
  by vm_compute.
Defined.

(** X20: the logs that the scheduler has written for the item ["0a"]. *)
Lemma log_readers_miss_the_job_logs_witness :
  iter_output toy_dir
    {[ job_output_path toy_dir toy_mapper "0a" := "out";
       job_error_path toy_dir toy_mapper "0a" := "err" ]}
    (toy_handle ["0a"]) (Hash "0a")
  = Raise FileNotFoundError
  ∧ iter_error toy_dir
      {[ job_output_path toy_dir toy_mapper "0a" := "out";
         job_error_path toy_dir toy_mapper "0a" := "err" ]}
      (toy_handle ["0a"]) (Hash "0a")
    = Raise FileNotFoundError
  ∧ output toy_dir
      {[ job_output_path toy_dir toy_mapper "0a" := "out";
         job_error_path toy_dir toy_mapper "0a" := "err" ]}
      (toy_handle ["0a"]) (Hash "0a")
    = Raise FileNotFoundError
  ∧ error toy_dir
      {[ job_output_path toy_dir toy_mapper "0a" := "out";
         job_error_path toy_dir toy_mapper "0a" := "err" ]}
      (toy_handle ["0a"]) (Hash "0a")
    = Raise FileNotFoundError.
Proof.
  apply (log_readers_miss_the_job_logs toy_dir
           {[ job_output_path toy_dir toy_mapper "0a" := "out";
              job_error_path toy_dir toy_mapper "0a" := "err" ]}
           (toy_handle ["0a"])).
  intros entry [b Hb]. exists "0a".
  apply lookup_insert_Some in Hb as [[Heq _]|[_ Hb]].
  - left. by rewrite <-Heq.
  - right. apply lookup_singleton_Some in Hb as [Heq _]. by rewrite <-Heq.
Defined.

(** X21: the only output never comes. *)
Lemma iter_as_available_never_gives_up_witness :
  iter_as_available toy_loads toy_dir toy_set_iter 100 disk_never
    (toy_handle ["0a"]) 0 = None
  ∧ iter_as_available_with_inputs toy_loads toy_dir toy_set_iter 100
      disk_never (toy_handle ["0a"]) 0 = None.
Proof.
  apply (iter_as_available_never_gives_up toy_loads toy_dir toy_set_iter
           (λ K _ _ s, reflexivity (elements s))
           toy_mapper None ["0a"] "0a" disk_never).
  - by left.
  - intros t. apply lookup_empty.
Defined.

(** A job of two processes whose outputs are looked for in [tmp/inputs]. *)
Abbreviation toy_job :=
  {| Job_cluster := 1; Job_jobdir := ["tmp"];
     Job_jobid_to_arg := [(0, 10); (1, 11)];
     Job_outputs_dir := ["tmp"; "inputs"] |}.

(** X22: the output of process 0 comes after one second, the output of
    process 1 is there from the start. *)
Lemma job_iter_one_second_of_grace_witness :
  ∃ T,
    Job_iter toy_loads
      (λ t, if decide (1 ≤ t)%nat
            then {[ ["tmp"; "inputs"; "0.out"] := "A";
                    ["tmp"; "inputs"; "1.out"] := "B" ]}
            else {[ ["tmp"; "inputs"; "1.out"] := "B" ]})
      toy_job 0
    = ((λ k, toy_loads (if decide (k = 0) then "A" else "B"))
         <$> (Job_jobid_to_arg toy_job).*1, None, T)
    ∧ (0 ≤ T ≤ 1)%nat.
Proof.
  apply (job_iter_one_second_of_grace toy_loads
           (λ t, if decide (1 ≤ t)%nat
                 then {[ ["tmp"; "inputs"; "0.out"] := "A";
                         ["tmp"; "inputs"; "1.out"] := "B" ]}
                 else {[ ["tmp"; "inputs"; "1.out"] := "B" ]})
           toy_job
           (λ k, if decide (k = 0) then 1%nat else 0%nat)
           (λ k, if decide (k = 0) then "A" else "B") 0).
  intros k Hk. apply list_elem_of_In in Hk as [<-|[<-|[]]].
  - split; [|simpl; lia]. intros t. by destruct t as [|t].
  - split; [|simpl; lia]. intros t. by destruct t as [|t].
Defined.

(** X23: the output of process 1 does not come. *)
Lemma job_iter_gives_up_after_one_second_witness :
  Job_iter toy_loads (λ _, {[ ["tmp"; "inputs"; "0.out"] := "A" ]})
    toy_job 0
  = ((λ _, toy_loads "A") <$> [0], Some FileNotFoundError, 1%nat).
Proof.
  apply (job_iter_gives_up_after_one_second toy_loads
           (λ _, {[ ["tmp"; "inputs"; "0.out"] := "A" ]}) toy_job
           (λ _, 0%nat) (λ _, "A") [0] [] 1 0).
  - reflexivity.
  - intros k' Hk'. apply list_elem_of_In in Hk' as [<-|[]].
    split; [|lia]. intros t. by vm_compute.
  - by vm_compute.
  - by vm_compute.
Defined.
